(** * Pattern block: edit-mode propagation and recursion guard

    A shallow embedding of the logic-bearing parts of the pattern
    ([core/block]) edit component:

    - [setBlockEditMode], the recursive walk that writes an editing mode
      for every inner block of a pattern;
    - the effect of [ReusableBlockEdit] that calls it, and the choice of
      what [ReusableBlockEdit] renders;
    - [ReusableBlockEditRecursionWrapper], which refuses to render a
      pattern inside itself.

    JavaScript strings are [string]; [undefined] is [None]; a JS object
    used as a map from client ids to modes is a [gmap string string].

    Further parts cover [useInferredLayout] of the same component, the
    size, repeat and image controls of the background panel, the movers
    of a grid item, and the layout, page size, fields and sort menus of
    a data view. Whole numbers of JavaScript are [Z]. *)

From stdpp Require Import gmap strings list fin_maps.

#[local] Set Default Proof Using "Type".
#[local] Set Warnings "-clear-no-such-hyp".

Local Open Scope string_scope.
Local Open Scope list_scope.

(** ** Data model *)

(** A block as the editor hands it to the component: only [clientId],
    [name] and [innerBlocks] are read by the propagator; [attributes] is
    read by the external classifier [isOverridableBlock] alone, so its
    type is left open. *)
#[local] Unset Elimination Schemes.
Inductive Block (Attrs : Type) : Type :=
  mkBlock {
    clientId : string;
    name : string;
    attributes : Attrs;
    innerBlocks : list (Block Attrs)
  }.

#[local] Set Elimination Schemes.

Arguments mkBlock {Attrs} _ _ _ _.
Arguments clientId {Attrs} _.
Arguments name {Attrs} _.
Arguments attributes {Attrs} _.
Arguments innerBlocks {Attrs} _.

(** The two mode strings the component writes. *)
Definition contentOnly : string := "contentOnly".
Definition disabled : string := "disabled".

(** JavaScript's [mode || alt] for a [mode] that is a string or
    [undefined]: [undefined] and the empty string are falsy. *)
Definition js_or (mode : option string) (alt : string) : string :=
  match mode with
  | Some s => if String.eqb s "" then alt else s
  | None => alt
  end.

(** [Array.prototype.forEach] with the callback's effect threaded through
    a state of type [S]. *)
Definition forEach {A S : Type} (f : A -> S -> S) : list A -> S -> S :=
  fix go (l : list A) (st : S) : S :=
    match l with
    | [] => st
    | x :: l' => go l' (f x st)
    end.

Section Propagator.
Context {Attrs S : Type}.

(** External classifier, imported from the patterns package. *)
Variable isOverridableBlock : Block Attrs -> bool.
(** [name] of the pattern block, imported from [./index]. *)
Variable patternBlockName : string.
(** The callback [setEditMode( clientId, editMode )]. *)
Variable setEditMode : string -> string -> S -> S.

(** [mode || ( isOverridableBlock( block ) ? 'contentOnly' : 'disabled' )] *)
Definition editModeOf (mode : option string) (block : Block Attrs) : string :=
  js_or mode (if isOverridableBlock block then contentOnly else disabled).

(** [block.name === patternBlockName ? 'disabled' : mode], the mode handed
    down to [block.innerBlocks]. *)
Definition innerMode (mode : option string) (block : Block Attrs) : option string :=
  if String.eqb (name block) patternBlockName then Some disabled else mode.

(** The callback that [setBlockEditMode] passes to [blocks.forEach]. *)
Fixpoint setBlockEditMode_each (mode : option string) (block : Block Attrs)
    (st : S) {struct block} : S :=
  let editMode := editModeOf mode block in
  let st1 := setEditMode (clientId block) editMode st in
  forEach (setBlockEditMode_each (innerMode mode block)) (innerBlocks block) st1.

Definition setBlockEditMode (blocks : list (Block Attrs)) (mode : option string)
    : S -> S :=
  forEach (setBlockEditMode_each mode) blocks.

End Propagator.

(** ** Observing the propagator *)

(** The sequence of calls [setEditMode( clientId, editMode )], oldest
    first. *)
Definition logEditMode (id mode : string) (log : list (string * string))
  : list (string * string) := log ++ [(id, mode)].

Definition writes {Attrs} (isOverridableBlock : Block Attrs -> bool)
    (patternBlockName : string) (blocks : list (Block Attrs))
    (mode : option string) : list (string * string) :=
  setBlockEditMode isOverridableBlock patternBlockName logEditMode blocks mode [].

(** Modelled from the spec: the edit-mode registry, "a mapping from node
    id to EditMode that the propagator writes into"; the store action
    [setBlockEditingMode] itself belongs to the block-editor store. *)
Definition setBlockEditingMode (id mode : string) (reg : gmap string string)
  : gmap string string := <[id := mode]> reg.

(** Every node of a forest, in pre-order. *)
Fixpoint subtree {Attrs} (block : Block Attrs) : list (Block Attrs) :=
  block :: flat_map subtree (innerBlocks block).

Definition allBlocks {Attrs} (blocks : list (Block Attrs)) : list (Block Attrs) :=
  flat_map subtree blocks.

(** [exposed pat blocks b]: [b] occurs in the forest [blocks] and none of
    its ancestors in the forest is a pattern block. *)
Inductive exposed {Attrs} (patternBlockName : string)
  : list (Block Attrs) -> Block Attrs -> Prop :=
| exposed_here blocks b :
    b ∈ blocks -> exposed patternBlockName blocks b
| exposed_below blocks parent b :
    parent ∈ blocks ->
    name parent ≠ patternBlockName ->
    exposed patternBlockName (innerBlocks parent) b ->
    exposed patternBlockName blocks b.

(** [nested pat blocks b]: [b] occurs in the forest [blocks] strictly
    below a pattern block. *)
Inductive nested {Attrs} (patternBlockName : string)
  : list (Block Attrs) -> Block Attrs -> Prop :=
| nested_in blocks parent b :
    parent ∈ blocks ->
    name parent = patternBlockName ->
    b ∈ allBlocks (innerBlocks parent) ->
    nested patternBlockName blocks b
| nested_below blocks parent b :
    parent ∈ blocks ->
    nested patternBlockName (innerBlocks parent) b ->
    nested patternBlockName blocks b.

(** ** The effect of [ReusableBlockEdit] *)

(** [!! getBlockBindingsSource( 'core/pattern-overrides' )] *)
Definition hasPatternOverridesSource {Source : Type}
    (getBlockBindingsSource : string -> option Source) : bool :=
  match getBlockBindingsSource "core/pattern-overrides" with
  | Some _ => true
  | None => false
  end.

(** [editingMode === 'disabled' || ! hasPatternOverridesSource
      ? 'disabled' : undefined] *)
Definition syncedMode (editingMode : string) (hasSource : bool) : option string :=
  if String.eqb editingMode "disabled" || negb hasSource
  then Some disabled
  else None.

(** The body of the [useEffect] that syncs the editing mode of the
    pattern block with its inner blocks. *)
Definition syncEditingMode {Attrs S Source : Type}
    (isOverridableBlock : Block Attrs -> bool) (patternBlockName : string)
    (setBlockEditingMode : string -> string -> S -> S)
    (innerBlocks : list (Block Attrs)) (editingMode : string)
    (getBlockBindingsSource : string -> option Source) : S -> S :=
  setBlockEditMode isOverridableBlock patternBlockName setBlockEditingMode
    innerBlocks
    (syncedMode editingMode (hasPatternOverridesSource getBlockBindingsSource)).

(** ** What [ReusableBlockEdit] renders *)

(** The two values assigned to [children]. *)
Inductive Children :=
| DeletedWarning      (* <Warning>Block has been deleted or is unavailable.</Warning> *)
| LoadingPlaceholder. (* <Placeholder><Spinner /></Placeholder> *)

(** The last element of the returned fragment. *)
Inductive Body (B : Type) :=
| InnerBlocksDiv (value : list B)  (* <div { ...innerBlocksProps } /> *)
| ContainerDiv (children : Children). (* <div { ...blockProps }>{ children }</div> *)

Arguments InnerBlocksDiv {B} _.
Arguments ContainerDiv {B} _.

Definition isMissing {Rec} (hasResolved : bool) (record : option Rec) : bool :=
  hasResolved && negb (bool_decide (is_Some record)).

Definition ReusableBlockEdit_children {Rec} (hasResolved : bool)
    (record : option Rec) : option Children :=
  let children := None in
  let children := if isMissing hasResolved record then Some DeletedWarning else children in
  let children := if negb hasResolved then Some LoadingPlaceholder else children in
  children.

(** [innerBlocks.length > 0 ? innerBlocks : blocks] *)
Definition innerBlocksValue {B} (innerBlocks blocks : list B) : list B :=
  if bool_decide (0 < length innerBlocks) then innerBlocks else blocks.

(** What rendering [ReusableBlockEdit] comes to: the last element of the
    fragment it returns, or the [TypeError] it throws before it returns
    anything. *)
Inductive Rendered (B : Type) :=
| Renders (body : Body B)
| Throws.

Arguments Renders {B} _.
Arguments Throws {B}.

(** [blocks] is [None] when [useEntityBlockEditor] hands over
    [undefined], which the component provides for with [blocks?.length].
    Then [blocks.ButtonBlockAppender], in the options handed to
    [useInnerBlocksProps], throws before [children] is looked at; when
    the overrides source is registered [hasOverridableBlocks( blocks )]
    is called on [undefined] even earlier. *)
Definition ReusableBlockEdit {Rec B} (hasResolved : bool) (record : option Rec)
    (innerBlocks : list B) (blocks : option (list B)) : Rendered B :=
  match blocks with
  | None => Throws
  | Some blocks =>
      Renders
        match ReusableBlockEdit_children hasResolved record with
        | None => InnerBlocksDiv (innerBlocksValue innerBlocks blocks)
        | Some children => ContainerDiv children
        end
  end.

(** ** Recursion guard *)

Section Guard.
Context {T : Type} `{EqDecision T}.

(** Modelled from the spec: [isActive], the read-only membership check
    on the RenderPath (section 4.1). The guard itself, [useHasRecursion]
    and [RecursionProvider], is imported from the block-editor package.
    A RenderPath is the ordered set of template identifiers being
    expanded, most recent first. *)
Definition isActive (t : T) (path : list T) : bool := bool_decide (t ∈ path).

(** Modelled from the spec: [enter] "returns false (and performs no
    mutation) if templateId is already present in the current
    RenderPath. Otherwise inserts templateId into RenderPath and returns
    true"; the guard's code is in the block-editor package. *)
Definition enter (t : T) (path : list T) : bool * list T :=
  if isActive t path then (false, path) else (true, t :: path).

(** Modelled from the spec: [exit] "removes templateId from RenderPath";
    the guard's code is in the block-editor package. *)
Definition exit (t : T) (path : list T) : list T :=
  filter (λ x, x ≠ t) path.

(** What the guard did, for inspection: an identifier acquired (an
    [enter] that returned true) or released (an [exit]). *)
Inductive Event :=
| Entered (t : T)
| Exited (t : T).

#[global] Instance Event_eq_dec : EqDecision Event.
Proof using Type*. solve_decision. Defined.

(** Modelled from the spec: the RenderPath, the "ordered set of template
    identifiers currently being expanded on the current call stack",
    most recent first, kept together with the log of guard events. *)
Record Guard := mkGuard { path : list T; events : list Event }.

(** A render step: it may complete with a view or be abandoned ([None]:
    error, early return, unmount), and it threads the guard. *)
Definition Render (V : Type) : Type := Guard -> option V * Guard.

(** Modelled from the spec: [useHasRecursion( uniqueId )] is the query
    [isActive] on the current path; its code is in the block-editor
    package. *)
Definition useHasRecursion (uniqueId : T) (g : Guard) : bool :=
  isActive uniqueId (path g).

(** Modelled from the spec: [RecursionProvider] is the scoped
    acquisition wrapper: [enter] before the children, and for an [enter]
    that returned true one [exit] after them on every outcome; its code
    is in the block-editor package. *)
Definition RecursionProvider {V} (uniqueId : T) (children : Render V) : Render V :=
  fun g =>
    let '(acquired, path1) := enter uniqueId (path g) in
    if acquired then
      let '(v, g2) := children (mkGuard path1 (events g ++ [Entered uniqueId])) in
      (v, mkGuard (exit uniqueId (path g2)) (events g2 ++ [Exited uniqueId]))
    else children g.

(** Replays a sequence of guard events from a path: an [Entered t] is
    legal only while [t] is inactive, an [Exited t] only when [t] is the
    most recent acquisition. *)
Fixpoint replay (evs : list Event) (p : list T) : option (list T) :=
  match evs with
  | [] => Some p
  | Entered t :: evs' => if isActive t p then None else replay evs' (t :: p)
  | Exited t :: evs' =>
      match p with
      | top :: rest => if decide (top = t) then replay evs' rest else None
      | [] => None
      end
  end.

(** ** The recursion wrapper *)

#[local] Unset Elimination Schemes.
Inductive View :=
| RecursionWarning              (* <RecursionWarning /> *)
| PatternContainer (ref : T) (children : Children)
| PatternInnerBlocks (ref : T) (views : list View)
| PlainBlock (views : list View).
#[local] Set Elimination Schemes.

(** [ReusableBlockEditRecursionWrapper( props )], with [ref] the
    attribute [props.attributes.ref] and [edit] the render of
    [<ReusableBlockEdit { ...props } />]. *)
Definition ReusableBlockEditRecursionWrapper (ref : T) (edit : Render View)
    : Render View :=
  fun g =>
    let hasAlreadyRendered := useHasRecursion ref g in
    if hasAlreadyRendered then (Some RecursionWarning, g)
    else RecursionProvider ref edit g.

(** Modelled from the spec: rendering the inner blocks one after the
    other stops at the first one that is abandoned; the inner-blocks
    renderer is part of the block-editor package. *)
Fixpoint renderAll (steps : list (Render View)) : Render (list View) :=
  match steps with
  | [] => fun g => (Some [], g)
  | step :: steps' => fun g =>
      match step g with
      | (None, g1) => (None, g1)
      | (Some v, g1) =>
          let '(vs, g2) := renderAll steps' g1 in (cons v <$> vs, g2)
      end
  end.

Definition mapView {A B} (f : A -> B) (r : option A * Guard) : option B * Guard :=
  (f <$> r.1, r.2).

(** Modelled from the spec: what a render pass walks. Ordinary blocks
    with their inner blocks; pattern blocks with the answer of the
    block-tree store ([hasResolved], [record]) and the blocks they would
    show ([innerBlocks] from the editor store, [blocks] from the entity,
    [None] when these are [undefined]); and points where the pass is
    abandoned (error, early return, unmount). The block tree of the page
    is held by the block-editor store. *)
#[local] Unset Elimination Schemes.
Inductive Page (Rec : Type) :=
| Plain (inner : list (Page Rec))
| Pattern (ref : T) (hasResolved : bool) (record : option Rec)
    (innerBlocks : list (Page Rec)) (blocks : option (list (Page Rec)))
| Abandon.
#[local] Set Elimination Schemes.

Arguments Plain {Rec} _.
Arguments Pattern {Rec} _ _ _ _ _.
Arguments Abandon {Rec}.

(** Modelled from the spec: the render pass; a pattern block is rendered
    by [ReusableBlockEditRecursionWrapper] around [ReusableBlockEdit],
    any other block by rendering its inner blocks; an edit component
    that throws abandons the pass at that point. The block renderer is
    part of the block-editor package. *)
Fixpoint render {Rec} (page : Page Rec) : Render View :=
  match page with
  | Abandon => fun g => (None, g)
  | Plain inner => fun g => mapView PlainBlock (renderAll (map render inner) g)
  | Pattern ref hasResolved record innerBlocks blocks =>
      ReusableBlockEditRecursionWrapper ref (fun g =>
        match ReusableBlockEdit hasResolved record
                (map render innerBlocks)
                match blocks with
                | Some blocks => Some (map render blocks)
                | None => None
                end with
        | Throws => (None, g)
        | Renders (ContainerDiv children) =>
            (Some (PatternContainer ref children), g)
        | Renders (InnerBlocksDiv value) =>
            mapView (PatternInnerBlocks ref) (renderAll value g)
        end)
  end.

(** The patterns that [ReusableBlockEdit] got to render somewhere in a
    view, outermost first. *)
Fixpoint expansions (v : View) : list T :=
  match v with
  | RecursionWarning => []
  | PatternContainer ref _ => [ref]
  | PatternInnerBlocks ref views => ref :: flat_map expansions views
  | PlainBlock views => flat_map expansions views
  end.

(** A render step is [scoped] when, completed or abandoned, it hands the
    path back as it found it and the guard events it added replay from
    that path back to it. *)
Definition scoped {V} (step : Render V) : Prop :=
  forall g,
    path (step g).2 = path g
    /\ exists evs,
         events (step g).2 = events g ++ evs
         /\ replay evs (path g) = Some (path g).

(** A render step is [guarded] when no pattern that is on the path it
    starts from is rendered by [ReusableBlockEdit] anywhere in its view. *)
Definition guarded (step : Render View) : Prop :=
  forall g v g',
    step g = (Some v, g') ->
    forall t, t ∈ path g -> t ∉ expansions v.

(** How often [t] was acquired, and released, in a sequence of events. *)
Definition acquisitions (t : T) (evs : list Event) : nat :=
  length (filter (fun e => e = Entered t) evs).

Definition releases (t : T) (evs : list Event) : nat :=
  length (filter (fun e => e = Exited t) evs).

End Guard.

Arguments Event : clear implicits.
Arguments Guard : clear implicits.
Arguments Render : clear implicits.
Arguments Page : clear implicits.
Arguments View : clear implicits.
Arguments Plain {T Rec} _.
Arguments Pattern {T Rec} _ _ _ _ _.
Arguments Abandon {T Rec}.

(** ** The inferred layout of a pattern *)

Definition fullAlignments : list string := ["full"; "wide"; "left"; "right"].

(** The values [initialInferredAlignmentRef.current] and [alignment]
    range over: [undefined], [null] or a string. *)
Inductive Alignment :=
| AlignUndefined
| AlignNull
| AlignString (s : string).

(** JavaScript truthiness of such a value. *)
Definition alignmentTruthy (a : Alignment) : bool :=
  match a with
  | AlignString s => negb (String.eqb s "")
  | _ => false
  end.

(** What [useInferredLayout] returns, as its caller destructures it:
    [{}] reads as [undefined] in both fields. *)
Record InferredLayout (Layout : Type) := mkInferredLayout {
  inferredAlignment : Alignment;
  inferredLayout : option Layout
}.

Arguments mkInferredLayout {Layout} _ _.
Arguments inferredAlignment {Layout} _.
Arguments inferredLayout {Layout} _.

Section InferredLayout.
Context {Attrs Layout : Type}.

(** [block.attributes.align] *)
Variable align : Attrs -> option string.
(** [parentLayout.type] *)
Variable layoutType : Layout -> option string.

(** [parentLayout?.type === 'constrained'] *)
Definition isConstrained (parentLayout : option Layout) : bool :=
  match parentLayout with
  | Some l =>
      match layoutType l with
      | Some t => String.eqb t "constrained"
      | None => false
      end
  | None => false
  end.

(** [blocks.some( ( block ) =>
      fullAlignments.includes( block.attributes.align ) )] *)
Definition hasFullAlignment (blocks : list (Block Attrs)) : bool :=
  existsb (fun block =>
             match align (attributes block) with
             | Some a => bool_decide (a ∈ fullAlignments)
             | None => false
             end) blocks.

(** The callback that [useInferredLayout] hands to [useMemo], with the
    ref [initialInferredAlignmentRef.current] threaded through: it takes
    the current value of the ref and returns the result and the new
    value. [blocks] is [None] when the blocks are [undefined]. *)
Definition useInferredLayout (current : Alignment)
    (blocks : option (list (Block Attrs))) (parentLayout : option Layout)
    : InferredLayout Layout * Alignment :=
  match blocks with
  | None | Some [] => (mkInferredLayout AlignUndefined None, current)
  | Some ((_ :: _) as blocks) =>
      let '(alignment, current) :=
        match current with
        | AlignUndefined =>
            let alignment :=
              if isConstrained parentLayout && hasFullAlignment blocks
              then AlignString "full"
              else AlignNull in
            (alignment, alignment)
        | alignment => (alignment, current)
        end in
      let layout := if alignmentTruthy alignment then parentLayout else None in
      (mkInferredLayout alignment layout, current)
  end.

(** A sequence of renders: each calls [useInferredLayout] with its own
    [blocks] and [parentLayout] on the ref the previous one left. *)
Fixpoint inferredLayouts (current : Alignment)
    (renders : list (option (list (Block Attrs)) * option Layout))
    : list (InferredLayout Layout) :=
  match renders with
  | [] => []
  | (blocks, parentLayout) :: renders' =>
      let '(result, current') := useInferredLayout current blocks parentLayout in
      result :: inferredLayouts current' renders'
  end.

End InferredLayout.

(** ** The background panel *)

(** JavaScript's [a || b] for two values that are strings or
    [undefined]. *)
Definition or_else (a b : option string) : option string :=
  match a with
  | Some s => if String.eqb s "" then b else Some s
  | None => b
  end.

(** JavaScript truthiness of a string or [undefined]. *)
Definition truthy (a : option string) : bool :=
  match a with
  | Some s => negb (String.eqb s "")
  | None => false
  end.

(** [style.background.backgroundImage]: a string (a [url()] value of
    theme.json, or ['none']) or an object with [id], [url], [title] and
    [source]. *)
Inductive BackgroundImage :=
| ImageString (value : string)
| ImageObject (id : option Z) (url title source : option string).

(** [style.background]; [backgroundOther] holds the properties the
    panel does not read. *)
Record Background := mkBackground {
  backgroundImage : option BackgroundImage;
  backgroundSize : option string;
  backgroundPosition : option string;
  backgroundRepeat : option string;
  backgroundOther : gmap string string
}.

(** [{}] *)
Definition emptyBackground : Background := mkBackground None None None None ∅.

(** The style attribute; [styleOther] holds what is not [background]. *)
Record Style := mkStyle {
  background : option Background;
  styleOther : gmap string string
}.

(** [style?.background] *)
Definition backgroundOf (style : option Style) : option Background :=
  style ≫= background.

(** [image?.id] and [image?.url] *)
Definition imageId (image : option BackgroundImage) : option Z :=
  match image with
  | Some (ImageObject id _ _ _) => id
  | _ => None
  end.

Definition imageUrl (image : option BackgroundImage) : option string :=
  match image with
  | Some (ImageObject _ url _ _) => url
  | _ => None
  end.

(** [!! id] for a number or [undefined]. *)
Definition truthyId (id : option Z) : bool :=
  match id with
  | Some n => negb (Z.eqb n 0)
  | None => false
  end.

Definition hasBackgroundSizeValue (style : option Style) : bool :=
  bool_decide (backgroundOf style ≫= backgroundPosition ≠ None)
  || bool_decide (backgroundOf style ≫= backgroundSize ≠ None).

Definition hasBackgroundImageValue (style : option Style) : bool :=
  truthyId (imageId (backgroundOf style ≫= backgroundImage))
  || match backgroundOf style ≫= backgroundImage with
     | Some (ImageString _) => true
     | _ => false
     end
  || truthy (imageUrl (backgroundOf style ≫= backgroundImage)).

Definition backgroundSizeHelpText (value : option string) : string :=
  if bool_decide (value = Some "cover" \/ value = None)
  then "Image covers the space evenly."
  else if bool_decide (value = Some "contain")
  then "Image is contained without distortion."
  else "Image has a fixed width.".

Section BackgroundSizeControls.
(** The props [style], [inheritedValue] and [defaultValues.backgroundSize]
    of [BackgroundSizeControls]. *)
Variable style inheritedValue : option Style.
Variable defaultBackgroundSize : option string.

Definition sizeValue : option string :=
  or_else (backgroundOf style ≫= backgroundSize)
          (backgroundOf inheritedValue ≫= backgroundSize).

Definition repeatValue : option string :=
  or_else (backgroundOf style ≫= backgroundRepeat)
          (backgroundOf inheritedValue ≫= backgroundRepeat).

Definition positionValue : option string :=
  or_else (backgroundOf style ≫= backgroundPosition)
          (backgroundOf inheritedValue ≫= backgroundPosition).

Definition currentValueForToggle : option string :=
  if bool_decide (sizeValue ≠ None)
       && bool_decide (sizeValue ≠ Some "cover")
       && bool_decide (sizeValue ≠ Some "contain")
     || bool_decide (sizeValue = Some "")
  then Some "auto"
  else or_else sizeValue defaultBackgroundSize.

Definition repeatCheckedValue : bool :=
  negb (bool_decide (repeatValue = Some "no-repeat")
        || bool_decide (currentValueForToggle = Some "cover")
           && bool_decide (repeatValue = None)).

(** The object that [updateBackgroundSize( next )] hands to
    [setImmutably( style, [ 'background' ], ... )]. *)
Definition updateBackgroundSize (next : option string) : Background :=
  let nextRepeat := repeatValue in
  let nextPosition := positionValue in
  let '(nextRepeat, nextPosition) :=
    if bool_decide (next = Some "contain")
    then (Some "no-repeat", None)
    else (nextRepeat, nextPosition) in
  let '(nextRepeat, nextPosition) :=
    if bool_decide (next = Some "cover")
    then (None, None)
    else (nextRepeat, nextPosition) in
  let '(nextRepeat, nextPosition) :=
    if (bool_decide (currentValueForToggle = Some "cover")
        || bool_decide (currentValueForToggle = Some "contain"))
       && bool_decide (next = Some "auto")
    then
      (None,
       if truthyId (imageId (backgroundOf style ≫= backgroundImage))
       then Some "50% 0"
       else nextPosition)
    else (nextRepeat, nextPosition) in
  let next :=
    if negb (truthy next) && bool_decide (currentValueForToggle = Some "auto")
    then Some "auto"
    else next in
  let spread := default emptyBackground (backgroundOf style) in
  mkBackground (backgroundImage spread) next nextPosition nextRepeat
    (backgroundOther spread).

(** The value that [toggleIsRepeated] hands to
    [setImmutably( style, [ 'background', 'backgroundRepeat' ], ... )]. *)
Definition toggleIsRepeated : string :=
  if repeatCheckedValue then "no-repeat" else "repeat".

(** The [disabled] props of the width input and of the Repeat toggle. *)
Definition unitControlDisabled : bool :=
  bool_decide (currentValueForToggle ≠ Some "auto")
  || bool_decide (currentValueForToggle = None).

Definition repeatToggleDisabled : bool :=
  bool_decide (currentValueForToggle = Some "cover").

(** The [help] prop of the size control. *)
Definition sizeHelp : string :=
  backgroundSizeHelpText (or_else sizeValue defaultBackgroundSize).

End BackgroundSizeControls.

(** [resetAllFilter] of [BackgroundPanel]:
    [{ ...previousValue, background: {} }]. *)
Definition resetAllFilter (previousValue : option Style) : Style :=
  mkStyle (Some emptyBackground)
    (match previousValue with Some v => styleOther v | None => ∅ end).

(** [hasImageValue] and [shouldShowBackgroundImageControls] of
    [BackgroundPanel]; the three settings are
    [settings?.background?.backgroundSize], [...backgroundPosition] and
    [...backgroundRepeat]. *)
Definition hasImageValue (value inheritedValue : option Style) : bool :=
  hasBackgroundImageValue value || hasBackgroundImageValue inheritedValue.

Definition shouldShowBackgroundImageControls (value inheritedValue : option Style)
    (settingSize settingPosition settingRepeat : bool) : bool :=
  hasImageValue value inheritedValue
  && (settingSize || settingPosition || settingRepeat).

(** [onSelectMedia] of [BackgroundImageControls]. *)

(** The media object the media library or an upload hands over. *)
Record Media := mkMedia {
  mediaUrl : option string;      (* media.url *)
  mediaId : option Z;            (* media.id *)
  mediaTitle : option string;    (* media.title *)
  media_type : option string;    (* media.media_type *)
  mediaType : option string      (* media.type *)
}.

(** What [onSelectMedia] does. *)
Inductive MediaOutcome :=
| ResetBackgroundImage   (* resetBackgroundImage() *)
| Ignored                (* return *)
| UploadError (message : string)   (* onUploadError( message ) *)
| SetBackground (value : Background).
  (* onChange( setImmutably( style, [ 'background' ], value ) ) *)

Definition IMAGE_BACKGROUND_TYPE : string := "image".

Section OnSelectMedia.
(** [isBlobURL], imported from the blob package. *)
Variable isBlobURL : string -> bool.
Variable style : option Style.

Definition onSelectMedia (media : option Media) : MediaOutcome :=
  match media with
  | None => ResetBackgroundImage
  | Some media =>
      match mediaUrl media with
      | None => ResetBackgroundImage
      | Some url =>
          if String.eqb url "" then ResetBackgroundImage
          else if isBlobURL url then Ignored
          else if truthy (media_type media)
                    && bool_decide (media_type media ≠ Some IMAGE_BACKGROUND_TYPE)
                  || negb (truthy (media_type media))
                     && truthy (mediaType media)
                     && bool_decide (mediaType media ≠ Some IMAGE_BACKGROUND_TYPE)
          then UploadError "Only images can be used as a background image."
          else
            let sizeValue := backgroundOf style ≫= backgroundSize in
            let positionValue := backgroundOf style ≫= backgroundPosition in
            let spread := default emptyBackground (backgroundOf style) in
            SetBackground
              (mkBackground
                 (Some (ImageObject (mediaId media) (Some url)
                          (or_else (mediaTitle media) None) (Some "file")))
                 (backgroundSize spread)
                 (if negb (truthy positionValue)
                     && (bool_decide (sizeValue = Some "auto")
                         || negb (truthy sizeValue))
                  then Some "50% 0"
                  else positionValue)
                 (backgroundRepeat spread)
                 (backgroundOther spread))
      end
  end.

End OnSelectMedia.

(** The [Remove] and [Reset] menu items of [BackgroundImageControls]:
    [canRemove] and [hasValue], and the value that [onRemove] hands to
    [setImmutably( style, [ 'background', 'backgroundImage' ], ... )]. *)
Definition hasValue (style : option Style) : bool := hasBackgroundImageValue style.

Definition canRemove (style inheritedValue : option Style) : bool :=
  negb (hasValue style) && hasBackgroundImageValue inheritedValue.

Definition onRemove : BackgroundImage := ImageString "none".

(** ** The movers of a grid item *)

Module Grid.
(** The [layout] of the grid item and the [parentLayout] of the grid. *)
Record Layout := mkLayout {
  columnStart : option Z;
  rowStart : option Z;
  columnSpan : option Z;
  rowSpan : option Z
}.
Record ParentLayout := mkParentLayout {
  columnCount : option Z;
  rowCount : option Z
}.
End Grid.

Section GridItemMovers.
Variable layout : option Grid.Layout.
Variable parentLayout : option Grid.ParentLayout.

Local Open Scope Z_scope.

(** [layout?.columnStart ?? 1] and the like. *)
Definition columnStart : Z := default 1 (layout ≫= Grid.columnStart).
Definition rowStart : Z := default 1 (layout ≫= Grid.rowStart).
Definition columnSpan : Z := default 1 (layout ≫= Grid.columnSpan).
Definition rowSpan : Z := default 1 (layout ≫= Grid.rowSpan).
Definition columnEnd : Z := columnStart + columnSpan - 1.
Definition rowEnd : Z := rowStart + rowSpan - 1.
Definition columnCount : option Z := parentLayout ≫= Grid.columnCount.
Definition rowCount : option Z := parentLayout ≫= Grid.rowCount.

(** [count && end >= count], read as the [disabled] prop. *)
Definition reachedCount (count : option Z) (last : Z) : bool :=
  match count with
  | Some n => negb (n =? 0) && (last >=? n)
  | None => false
  end.

(** The [disabled] props of the four buttons. *)
Definition moveUpDisabled : bool := rowStart <=? 1.
Definition moveDownDisabled : bool := reachedCount rowCount rowEnd.
Definition moveLeftDisabled : bool := columnStart <=? 1.
Definition moveRightDisabled : bool := reachedCount columnCount columnEnd.

(** What a click does: the object handed to [onChange], and the column
    and row handed to [getNumberOfBlocksBeforeCell]. *)
Definition moveUp : Grid.Layout * (Z * Z) :=
  (Grid.mkLayout None (Some (rowStart - 1)) None None, (columnStart, rowStart - 1)).
Definition moveDown : Grid.Layout * (Z * Z) :=
  (Grid.mkLayout None (Some (rowStart + 1)) None None, (columnStart, rowStart + 1)).
Definition moveLeft : Grid.Layout * (Z * Z) :=
  (Grid.mkLayout (Some (columnStart - 1)) None None None, (columnStart - 1, rowStart)).
Definition moveRight : Grid.Layout * (Z * Z) :=
  (Grid.mkLayout (Some (columnStart + 1)) None None None, (columnStart + 1, rowStart)).

End GridItemMovers.

(** ** The view options of a data view *)

Module Field.
(** A normalized field, as far as the menus read it. *)
Record Field := mkField {
  id : string;
  header : string;
  enableHiding : option bool;
  enableSorting : option bool
}.
End Field.

Module View.
(** [view.layout]; [layoutOther] holds what the menus do not read. *)
Record Layout := mkLayout {
  mediaField : option string;
  layoutOther : gmap string string
}.
(** [view.sort] *)
Record Sort := mkSort {
  field : string;
  direction : string
}.
(** The view; [other] holds what the menus do not read (search,
    filters and the like). *)
Record View := mkView {
  type : string;
  layout : Layout;
  perPage : option Z;
  page : option Z;
  fields : option (list string);
  sort : option Sort;
  other : gmap string string
}.
End View.

(** An entry of [VIEW_LAYOUTS], imported from [./layouts]. *)
Record ViewLayoutEntry := mkViewLayoutEntry {
  entryType : string;   (* type *)
  entryLabel : string   (* label *)
}.

(** [{}] as a layout. *)
Definition emptyLayout : View.Layout := View.mkLayout None ∅.

(** A radio or checkbox item of a menu: its [value] and whether it is
    [checked]. *)
Record MenuItem (A : Type) := mkMenuItem {
  itemValue : A;
  itemChecked : bool
}.

Arguments mkMenuItem {A} _ _.
Arguments itemValue {A} _.
Arguments itemChecked {A} _.

Section ViewTypeMenu.
Variable VIEW_LAYOUTS : list ViewLayoutEntry.

(** [_availableViews] of [ViewTypeMenu]. *)
Definition availableViews (supportedLayouts : option (list string))
    : list ViewLayoutEntry :=
  match supportedLayouts with
  | Some supported =>
      filter (fun _view => entryType _view ∈ supported) VIEW_LAYOUTS
  | None => VIEW_LAYOUTS
  end.

(** What [ViewTypeMenu] returns: [None] for [null], else the radio
    items. *)
Definition ViewTypeMenu (view : View.View) (supportedLayouts : option (list string))
    : option (list (MenuItem string)) :=
  let _availableViews := availableViews supportedLayouts in
  if bool_decide (length _availableViews = 1%nat) then None
  else Some (map (fun availableView =>
                    mkMenuItem (entryType availableView)
                      (bool_decide (entryType availableView = View.type view)))
                 _availableViews).

End ViewTypeMenu.

(** The [onChange] of a layout radio item, for [e.target.value]: the view
    handed to [onChangeView], or the message of the error thrown. *)
Definition onChangeViewType (view : View.View) (value : string) : View.View + string :=
  if bool_decide (value = "list" \/ value = "grid" \/ value = "table")
  then inl (View.mkView value emptyLayout (View.perPage view) (View.page view)
              (View.fields view) (View.sort view) (View.other view))
  else inr "Invalid dataview".

Definition PAGE_SIZE_VALUES : list Z := [10; 20; 50; 100]%Z.

(** The radio items of [PageSizeMenu] and the view their [onChange]
    hands to [onChangeView]. *)
Definition PageSizeMenu (view : View.View) : list (MenuItem Z) :=
  map (fun size => mkMenuItem size (bool_decide (View.perPage view = Some size)))
      PAGE_SIZE_VALUES.

Definition onChangePageSize (view : View.View) (size : Z) : View.View :=
  View.mkView (View.type view) (View.layout view) (Some size) (Some 1%Z)
    (View.fields view) (View.sort view) (View.other view).

(** [FieldsVisibilityMenu] *)
Definition hidableFields (fields : list Field.Field) (view : View.View)
    : list Field.Field :=
  filter (fun field =>
            Field.enableHiding field ≠ Some false
            /\ Some (Field.id field) ≠ View.mediaField (View.layout view))
         fields.

(** [view.fields || fields.map( ( field ) => field.id )]: an array, even
    an empty one, is truthy. *)
Definition viewFields (fields : list Field.Field) (view : View.View) : list string :=
  match View.fields view with
  | Some ids => ids
  | None => map Field.id fields
  end.

Definition FieldsVisibilityMenu (fields : list Field.Field) (view : View.View)
    : option (list (MenuItem string)) :=
  match hidableFields fields view with
  | [] => None
  | hidable =>
      Some (map (fun field =>
                   mkMenuItem (Field.id field)
                     (bool_decide (Field.id field ∈ viewFields fields view)))
                hidable)
  end.

(** The [onChange] of the checkbox of [field]. *)
Definition onChangeFieldVisibility (fields : list Field.Field) (view : View.View)
    (field : Field.Field) : View.View :=
  let current := viewFields fields view in
  View.mkView (View.type view) (View.layout view) (View.perPage view) (View.page view)
    (Some (if bool_decide (Field.id field ∈ current)
           then filter (fun id => id ≠ Field.id field) current
           else current ++ [Field.id field]))
    (View.sort view) (View.other view).

(** [SortMenu] *)
Definition sortableFields (fields : list Field.Field) : list Field.Field :=
  filter (fun field => Field.enableSorting field ≠ Some false) fields.

Definition currentSortedField (fields : list Field.Field) (view : View.View)
    : option Field.Field :=
  List.find (fun field =>
               bool_decide (Some (Field.id field) = View.field <$> View.sort view))
            fields.

(** [isChecked] for the radio item of [field] and [direction]. *)
Definition isChecked (fields : list Field.Field) (view : View.View)
    (field : Field.Field) (direction : string) : bool :=
  match currentSortedField fields view with
  | Some current =>
      bool_decide (View.direction <$> View.sort view = Some direction)
      && bool_decide (Field.id field = Field.id current)
  | None => false
  end.

(** The [onChange] of that radio item. *)
Definition onChangeSort (view : View.View) (field : Field.Field)
    (direction : string) : View.View :=
  View.mkView (View.type view) (View.layout view) (View.perPage view) (View.page view)
    (View.fields view) (Some (View.mkSort (Field.id field) direction))
    (View.other view).

(** ** Sample blocks

    Blocks whose attributes are just the verdict of the classifier, used
    to evaluate the definitions on concrete forests. *)

Definition corePattern : string := "core/block".

Definition flagged (block : Block bool) : bool := attributes block.

Definition paragraph (id : string) (overridable : bool) : Block bool :=
  mkBlock id "core/paragraph" overridable [].

Definition patternOf (id : string) (overridable : bool)
    (inner : list (Block bool)) : Block bool :=
  mkBlock id corePattern overridable inner.

(** A pattern block with one overridable paragraph below it. *)
Definition sampleNested : list (Block bool) :=
  [patternOf "p" false [paragraph "x" true]].

(** An overridable pattern block inside another pattern block. *)
Definition sampleDeep : list (Block bool) :=
  [patternOf "p1" false [patternOf "p2" true [paragraph "x" true]]].

(** Two paragraphs next to an overridable pattern block. *)
Definition sampleFlat : list (Block bool) :=
  [paragraph "a" true; paragraph "b" false;
   patternOf "p" true [paragraph "x" true; paragraph "y" false]].

(** ** Sample pages *)

(** Pattern A whose blocks contain a reference to A. *)
Definition selfReference : Page string unit :=
  Pattern "A" true (Some tt) [Pattern "A" true (Some tt) [] (Some [])] (Some []).

(** Pattern A contains B, and B contains A. *)
Definition mutualReference : Page string unit :=
  Pattern "A" true (Some tt)
    [Plain [Pattern "B" true (Some tt)
              [Pattern "A" true (Some tt) [] (Some [])] (Some [])]]
    (Some []).

(** Pattern A whose render is abandoned below a nested pattern B. *)
Definition abandonedInside : Page string unit :=
  Pattern "A" true (Some tt)
    [Pattern "B" true (Some tt) [Plain []; Abandon; Plain []] (Some [])] (Some []).

(** Pattern A with only ordinary blocks. *)
Definition plainPattern : Page string unit :=
  Pattern "A" true (Some tt) [Plain []] (Some []).

(** Pattern A while its entity is loading and the blocks of the entity
    are [undefined]. *)
Definition undefinedBlocks : Page string unit :=
  Pattern "A" false None [] None.

(** ** Sample layouts, styles and media *)

(** Blocks whose attributes are just their [align]. *)
Definition alignAttribute (attrs : option string) : option string := attrs.

(** Layouts that are just their [type]. *)
Definition layoutTypeOf (l : string) : option string := Some l.

Definition sampleAligned : list (Block (option string)) :=
  [mkBlock "a" "core/paragraph" None []; mkBlock "b" "core/image" (Some "wide") []].

Definition sampleRenders
    : list (option (list (Block (option string))) * option string) :=
  [(None, Some "flow");
   (Some [mkBlock "c" "core/paragraph" None []], Some "flow")].

Definition styleWith (value : Background) : option Style :=
  Some (mkStyle (Some value) ∅).

(** An uploaded image that covers the block. *)
Definition coverStyle : option Style :=
  styleWith
    (mkBackground
       (Some (ImageObject (Some 7%Z) (Some "https://example.org/a.png") None
                (Some "file")))
       (Some "cover") (Some "10% 20%") None ∅).

(** A tiled image of fixed width. *)
Definition tileStyle : option Style :=
  styleWith (mkBackground None (Some "120px") None (Some "repeat") ∅).

Definition sampleMedia : Media :=
  mkMedia (Some "https://example.org/b.png") (Some 9%Z) (Some "b") (Some "image") None.

(** A blob URL starts with [blob:]. *)
Definition startsWithBlob (url : string) : bool := String.prefix "blob:" url.

(** * Forests of blocks *)

Section ForestTheory.
Context {Attrs : Type}.

(** Induction over forests: a property of the empty forest that passes
    from the inner blocks of [b] and from its later siblings to
    [b :: bs] holds of every forest. *)
Lemma forest_ind (Q : list (Block Attrs) -> Prop) :
  Q [] ->
  (forall b bs, Q (innerBlocks b) -> Q bs -> Q (b :: bs)) ->
  forall bs, Q bs.
Proof.
  intros Hnil Hcons.
  refine (fix go (bs : list (Block Attrs)) : Q bs :=
            match bs with
            | [] => Hnil
            | b :: bs' => Hcons b bs' _ (go bs')
            end).
  revert b.
  refine (fix each (b : Block Attrs) : Q (innerBlocks b) :=
            match b with
            | mkBlock _ _ _ inner =>
                (fix inners (l : list (Block Attrs)) : Q l :=
                   match l with
                   | [] => Hnil
                   | x :: l' => Hcons x l' (each x) (inners l')
                   end) inner
            end).
Qed.

Lemma allBlocks_cons (b : Block Attrs) bs :
  allBlocks (b :: bs) = b :: allBlocks (innerBlocks b) ++ allBlocks bs.
Proof. destruct b; reflexivity. Qed.

Lemma subtree_eq (b : Block Attrs) :
  subtree b = b :: allBlocks (innerBlocks b).
Proof. destruct b; reflexivity. Qed.

Lemma elem_of_allBlocks_cons (x b : Block Attrs) bs :
  x ∈ allBlocks (b :: bs) <->
  x = b \/ x ∈ allBlocks (innerBlocks b) \/ x ∈ allBlocks bs.
Proof. rewrite allBlocks_cons. set_solver. Qed.

Lemma elem_of_allBlocks_top (b : Block Attrs) bs : b ∈ bs -> b ∈ allBlocks bs.
Proof.
  intros Hb. unfold allBlocks. apply list_elem_of_In, in_flat_map.
  exists b. split; [by apply list_elem_of_In|]. rewrite subtree_eq. by left.
Qed.

Lemma elem_of_allBlocks_inner (x parent : Block Attrs) bs :
  parent ∈ bs -> x ∈ allBlocks (innerBlocks parent) -> x ∈ allBlocks bs.
Proof.
  intros Hp Hx. unfold allBlocks at 1. apply list_elem_of_In, in_flat_map.
  exists parent. split; [by apply list_elem_of_In|].
  rewrite subtree_eq. right. by apply list_elem_of_In.
Qed.

End ForestTheory.

(** * Properties of the propagator *)

Section PropagatorTheory.
Context {Attrs : Type}.
Variable isOverridableBlock : Block Attrs -> bool.
Variable patternBlockName : string.

(** The recursion of the source: one write for the block, then the walk
    of its inner blocks, then the remaining siblings. *)
Lemma setBlockEditMode_cons {S} (set : string -> string -> S -> S)
    block blocks mode st :
  setBlockEditMode isOverridableBlock patternBlockName set (block :: blocks) mode st =
  setBlockEditMode isOverridableBlock patternBlockName set blocks mode
    (setBlockEditMode isOverridableBlock patternBlockName set
       (innerBlocks block) (innerMode patternBlockName mode block)
       (set (clientId block) (editModeOf isOverridableBlock mode block) st)).
Proof. destruct block; reflexivity. Qed.

Lemma setBlockEditMode_nil {S} (set : string -> string -> S -> S) mode st :
  setBlockEditMode isOverridableBlock patternBlockName set [] mode st = st.
Proof. reflexivity. Qed.

Lemma setBlockEditMode_log blocks :
  forall mode log,
    setBlockEditMode isOverridableBlock patternBlockName logEditMode blocks mode log
    = log ++ writes isOverridableBlock patternBlockName blocks mode.
Proof.
  induction blocks as [|b bs IHin IHbs] using forest_ind; intros mode log.
  - unfold writes. rewrite !setBlockEditMode_nil. by rewrite app_nil_r.
  - unfold writes. rewrite !setBlockEditMode_cons.
    rewrite IHbs, IHin.
    rewrite (IHbs _ (setBlockEditMode isOverridableBlock patternBlockName _ _ _ _)).
    rewrite (IHin _ (logEditMode _ _ [])).
    unfold logEditMode. simpl. by rewrite <- !app_assoc.
Qed.

Lemma writes_nil mode : writes isOverridableBlock patternBlockName [] mode = [].
Proof. reflexivity. Qed.

Lemma writes_cons b bs mode :
  writes isOverridableBlock patternBlockName (b :: bs) mode =
  (clientId b, editModeOf isOverridableBlock mode b)
    :: writes isOverridableBlock patternBlockName
         (innerBlocks b) (innerMode patternBlockName mode b)
    ++ writes isOverridableBlock patternBlockName bs mode.
Proof.
  unfold writes at 1. rewrite setBlockEditMode_cons.
  rewrite !setBlockEditMode_log. reflexivity.
Qed.

(** Whatever the callback does, the walk is the left fold of the callback
    over the recorded writes. *)
Lemma setBlockEditMode_fold {S} (set : string -> string -> S -> S) blocks :
  forall mode st,
    setBlockEditMode isOverridableBlock patternBlockName set blocks mode st =
    fold_left (fun st w => set w.1 w.2 st)
      (writes isOverridableBlock patternBlockName blocks mode) st.
Proof.
  induction blocks as [|b bs IHin IHbs] using forest_ind; intros mode st.
  - reflexivity.
  - rewrite setBlockEditMode_cons, writes_cons. simpl.
    rewrite fold_left_app. by rewrite IHbs, IHin.
Qed.

(** One write per node, in pre-order. *)
Lemma writes_ids blocks :
  forall mode,
    (writes isOverridableBlock patternBlockName blocks mode).*1
    = (clientId <$> allBlocks blocks).
Proof.
  induction blocks as [|b bs IHin IHbs] using forest_ind; intros mode.
  - reflexivity.
  - rewrite writes_cons, allBlocks_cons. simpl.
    rewrite !fmap_app. by rewrite IHin, IHbs.
Qed.

Lemma exposed_allBlocks (blocks : list (Block Attrs)) (b : Block Attrs) :
  exposed patternBlockName blocks b -> b ∈ allBlocks blocks.
Proof.
  induction 1 as [bs b Hb | bs parent b Hp _ _ IH].
  - by apply elem_of_allBlocks_top.
  - by apply (elem_of_allBlocks_inner _ parent).
Qed.

Lemma nested_allBlocks (blocks : list (Block Attrs)) (b : Block Attrs) :
  nested patternBlockName blocks b -> b ∈ allBlocks blocks.
Proof.
  induction 1 as [bs parent b Hp _ Hb | bs parent b Hp _ IH].
  - by apply (elem_of_allBlocks_inner _ parent).
  - by apply (elem_of_allBlocks_inner _ parent).
Qed.

(** A write of a member of the forest is a write of the walk. *)
Lemma writes_member_top blocks :
  forall mode b,
    b ∈ blocks ->
    (clientId b, editModeOf isOverridableBlock mode b)
    ∈ writes isOverridableBlock patternBlockName blocks mode.
Proof.
  induction blocks as [|x xs IH]; intros mode b Hb.
  - by apply elem_of_nil in Hb.
  - rewrite writes_cons. apply elem_of_cons in Hb as [->|Hb].
    + by left.
    + right. apply elem_of_app. right. by apply IH.
Qed.

Lemma writes_member_inner blocks :
  forall mode parent w,
    parent ∈ blocks ->
    w ∈ writes isOverridableBlock patternBlockName
          (innerBlocks parent) (innerMode patternBlockName mode parent) ->
    w ∈ writes isOverridableBlock patternBlockName blocks mode.
Proof.
  induction blocks as [|x xs IH]; intros mode parent w Hp Hw.
  - by apply elem_of_nil in Hp.
  - rewrite writes_cons. apply elem_of_cons in Hp as [<-|Hp].
    + right. apply elem_of_app. by left.
    + right. apply elem_of_app. right. by apply (IH _ parent).
Qed.

Lemma innerMode_pattern mode (b : Block Attrs) :
  name b = patternBlockName -> innerMode patternBlockName mode b = Some disabled.
Proof. intros Hb. unfold innerMode. by rewrite Hb, String.eqb_refl. Qed.

Lemma innerMode_other mode (b : Block Attrs) :
  name b ≠ patternBlockName -> innerMode patternBlockName mode b = mode.
Proof.
  intros Hb. unfold innerMode.
  destruct (String.eqb_spec (name b) patternBlockName); [done|reflexivity].
Qed.

Lemma innerMode_cases mode (b : Block Attrs) :
  innerMode patternBlockName mode b = mode
  \/ innerMode patternBlockName mode b = Some disabled.
Proof.
  unfold innerMode. destruct (String.eqb _ _); [by right|by left].
Qed.

Lemma editModeOf_supplied m (b : Block Attrs) :
  m ≠ "" -> editModeOf isOverridableBlock (Some m) b = m.
Proof.
  intros Hm. unfold editModeOf, js_or.
  destruct (String.eqb_spec m ""); [done|reflexivity].
Qed.

Lemma editModeOf_undefined (b : Block Attrs) :
  editModeOf isOverridableBlock None b
  = if isOverridableBlock b then contentOnly else disabled.
Proof. reflexivity. Qed.

(** Nodes that are not below a pattern block are written with the mode
    computed from the [mode] of the call. *)
Lemma writes_exposed (blocks : list (Block Attrs)) (b : Block Attrs) :
  exposed patternBlockName blocks b ->
  forall mode,
    (clientId b, editModeOf isOverridableBlock mode b)
    ∈ writes isOverridableBlock patternBlockName blocks mode.
Proof.
  induction 1 as [bs b Hb | bs parent b Hp Hname _ IH]; intros mode.
  - by apply writes_member_top.
  - apply (writes_member_inner _ _ parent); [done|].
    rewrite innerMode_other by done. apply IH.
Qed.

(** With a supplied mode ['disabled'] every write is ['disabled']. *)
Lemma writes_all_disabled blocks :
  writes isOverridableBlock patternBlockName blocks (Some disabled)
  = ((fun b => (clientId b, disabled)) <$> allBlocks blocks).
Proof.
  induction blocks as [|b bs IHin IHbs] using forest_ind.
  - reflexivity.
  - rewrite writes_cons, allBlocks_cons. simpl. rewrite fmap_app.
    rewrite IHbs. f_equal. f_equal.
    destruct (innerMode_cases (Some disabled) b) as [-> | ->]; apply IHin.
Qed.

Lemma writes_nested (blocks : list (Block Attrs)) (b : Block Attrs) :
  nested patternBlockName blocks b ->
  forall mode,
    (clientId b, disabled) ∈ writes isOverridableBlock patternBlockName blocks mode.
Proof.
  induction 1 as [bs parent b Hp Hname Hb | bs parent b Hp _ IH]; intros mode.
  - apply (writes_member_inner _ _ parent); [done|].
    rewrite innerMode_pattern by done. rewrite writes_all_disabled.
    apply list_elem_of_fmap. by exists b.
  - apply (writes_member_inner _ _ parent); [done|]. apply IH.
Qed.

(** The modes a call with ['disabled'] or [undefined] can write. *)
Lemma writes_two_modes blocks :
  forall mode,
    mode = None \/ mode = Some disabled ->
    Forall (fun w => w.2 = contentOnly \/ w.2 = disabled)
      (writes isOverridableBlock patternBlockName blocks mode).
Proof.
  induction blocks as [|b bs IHin IHbs] using forest_ind; intros mode Hmode.
  - constructor.
  - rewrite writes_cons. constructor; [|apply Forall_app; split].
    + simpl. destruct Hmode as [-> | ->].
      * rewrite editModeOf_undefined. destruct (isOverridableBlock b); auto.
      * right. by apply editModeOf_supplied.
    + apply IHin. destruct (innerMode_cases mode b) as [-> | ->]; auto.
    + by apply IHbs.
Qed.

(** A block the classifier rejects is written ['disabled'] wherever it
    stands. *)
Lemma writes_not_overridable blocks :
  forall mode b,
    mode = None \/ mode = Some disabled ->
    b ∈ allBlocks blocks ->
    isOverridableBlock b = false ->
    (clientId b, disabled) ∈ writes isOverridableBlock patternBlockName blocks mode.
Proof.
  induction blocks as [|x xs IHin IHxs] using forest_ind; intros mode b Hmode Hb Hov.
  - by apply elem_of_nil in Hb.
  - rewrite writes_cons.
    apply elem_of_allBlocks_cons in Hb as [-> | [Hb | Hb]].
    + apply elem_of_cons. left. f_equal. destruct Hmode as [-> | ->].
      * rewrite editModeOf_undefined. by rewrite Hov.
      * by rewrite editModeOf_supplied.
    + right. apply elem_of_app. left. apply IHin; [|done|done].
      destruct (innerMode_cases mode x) as [-> | ->]; auto.
    + right. apply elem_of_app. right. by apply IHxs.
Qed.

Lemma nested_weaken (x : Block Attrs) xs c :
  nested patternBlockName xs c -> nested patternBlockName (x :: xs) c.
Proof.
  destruct 1 as [bs parent b Hp Hname Hb | bs parent b Hp Hn].
  - apply (nested_in _ _ parent); [by right|done|done].
  - apply (nested_below _ _ parent); [by right|done].
Qed.

(** Every node below a pattern block of the forest is [nested]. *)
Lemma below_pattern_nested (blocks : list (Block Attrs)) :
  forall c p,
    p ∈ allBlocks blocks ->
    name p = patternBlockName ->
    c ∈ allBlocks (innerBlocks p) ->
    nested patternBlockName blocks c.
Proof.
  induction blocks as [|x xs IHin IHxs] using forest_ind; intros c p Hp Hname Hc.
  - by apply elem_of_nil in Hp.
  - apply elem_of_allBlocks_cons in Hp as [-> | [Hp | Hp]].
    + apply (nested_in _ _ x); [by left|done|done].
    + apply (nested_below _ _ x); [by left|]. by apply (IHin c p).
    + apply nested_weaken. by apply (IHxs c p).
Qed.

End PropagatorTheory.

(** With a supplied mode the classifier is never consulted. *)
Lemma writes_supplied_any_classifier {Attrs}
    (isOverridable1 isOverridable2 : Block Attrs -> bool)
    patternBlockName blocks :
  forall m,
    m ≠ "" ->
    writes isOverridable1 patternBlockName blocks (Some m) =
    writes isOverridable2 patternBlockName blocks (Some m).
Proof.
  induction blocks as [|b bs IHin IHbs] using forest_ind; intros m Hm.
  - reflexivity.
  - rewrite !writes_cons. rewrite (IHbs m Hm). f_equal.
    + f_equal. by rewrite !editModeOf_supplied.
    + f_equal.
      destruct (innerMode_cases patternBlockName (Some m) b) as [-> | ->];
        by apply IHin.
Qed.

(** * The registry after the walk *)

Section RegistryTheory.
Context {Attrs : Type}.
Variable isOverridableBlock : Block Attrs -> bool.
Variable patternBlockName : string.

Lemma fold_writes_untouched (ws : list (string * string)) :
  forall (reg : gmap string string) id,
    id ∉ ws.*1 ->
    fold_left (fun st w => setBlockEditingMode w.1 w.2 st) ws reg !! id = reg !! id.
Proof.
  induction ws as [|[k v] ws IH]; intros reg id Hid; [done|].
  simpl in *. apply not_elem_of_cons in Hid as [Hne Hid].
  rewrite IH by done. unfold setBlockEditingMode. by rewrite lookup_insert_ne.
Qed.

Lemma fold_writes_lookup (ws : list (string * string)) :
  forall (reg : gmap string string) id m,
    NoDup ws.*1 ->
    (id, m) ∈ ws ->
    fold_left (fun st w => setBlockEditingMode w.1 w.2 st) ws reg !! id = Some m.
Proof.
  induction ws as [|[k v] ws IH]; intros reg id m Hnd Hin.
  - by apply elem_of_nil in Hin.
  - simpl in *. apply NoDup_cons in Hnd as [Hk Hnd].
    apply elem_of_cons in Hin as [Heq | Hin].
    + injection Heq as -> ->. rewrite fold_writes_untouched by done.
      unfold setBlockEditingMode. by rewrite lookup_insert_eq.
    + by apply IH.
Qed.

Lemma fold_writes_constant (ws : list (string * string)) m :
  forall (reg : gmap string string) id,
    Forall (fun w => w.2 = m) ws ->
    id ∈ ws.*1 ->
    fold_left (fun st w => setBlockEditingMode w.1 w.2 st) ws reg !! id = Some m.
Proof.
  induction ws as [|[k v] ws IH]; intros reg id Hall Hid.
  - by apply elem_of_nil in Hid.
  - simpl in *. apply Forall_cons in Hall as [Hv Hall]. simpl in Hv. subst v.
    destruct (decide (id ∈ ws.*1)) as [Hin | Hout].
    + by apply IH.
    + apply elem_of_cons in Hid as [-> | Hid]; [|done].
      rewrite fold_writes_untouched by done.
      unfold setBlockEditingMode. by rewrite lookup_insert_eq.
Qed.

(** With distinct client ids, a recorded write is what the registry
    holds after the walk. *)
Lemma registry_assigned (blocks : list (Block Attrs)) mode reg id m :
  NoDup (clientId <$> allBlocks blocks) ->
  (id, m) ∈ writes isOverridableBlock patternBlockName blocks mode ->
  setBlockEditMode isOverridableBlock patternBlockName setBlockEditingMode
    blocks mode reg !! id = Some m.
Proof.
  intros Hnd Hin. rewrite setBlockEditMode_fold.
  apply fold_writes_lookup; [|done]. by rewrite writes_ids.
Qed.

(** Entries of blocks outside the forest are left alone. *)
Lemma registry_untouched (blocks : list (Block Attrs)) mode reg id :
  id ∉ clientId <$> allBlocks blocks ->
  setBlockEditMode isOverridableBlock patternBlockName setBlockEditingMode
    blocks mode reg !! id = reg !! id.
Proof.
  intros Hid. rewrite setBlockEditMode_fold.
  apply fold_writes_untouched. by rewrite writes_ids.
Qed.

(** C1. Called with the mode ['disabled'], [setBlockEditMode] writes
    ['disabled'] for every block of the forest, in pre-order, and the
    registry then holds ['disabled'] for each of them, whatever the
    classifier [isOverridableBlock] answers. *)
Theorem disabled_mode_disables_every_block (blocks : list (Block Attrs))
    (reg : gmap string string) :
  writes isOverridableBlock patternBlockName blocks (Some disabled) =
    ((fun b => (clientId b, disabled)) <$> allBlocks blocks)
  /\ Forall (fun b =>
       setBlockEditMode isOverridableBlock patternBlockName setBlockEditingMode
         blocks (Some disabled) reg !! clientId b = Some disabled)
     (allBlocks blocks).
Proof.
  split; [apply writes_all_disabled|].
  apply Forall_forall. intros b Hb. rewrite setBlockEditMode_fold.
  apply fold_writes_constant.
  - rewrite writes_all_disabled. apply Forall_fmap, Forall_forall. by intros.
  - rewrite writes_ids. apply list_elem_of_fmap. by exists b.
Qed.

(** C9. Called with ['disabled'] or [undefined], [setBlockEditMode]
    calls the callback once per block of the forest, in pre-order; every
    value it writes is ['contentOnly'] or ['disabled'], never ['default']
    nor an empty mode; and the registry after the walk is the registry
    with exactly these writes applied. *)
Theorem every_block_written_once (blocks : list (Block Attrs)) (mode : option string) :
  mode = Some disabled \/ mode = None ->
  (writes isOverridableBlock patternBlockName blocks mode).*1
    = (clientId <$> allBlocks blocks)
  /\ Forall (fun w => w.2 = contentOnly \/ w.2 = disabled)
       (writes isOverridableBlock patternBlockName blocks mode)
  /\ Forall (fun w => w.2 ≠ "default" /\ w.2 ≠ "")
       (writes isOverridableBlock patternBlockName blocks mode)
  /\ forall reg : gmap string string,
       setBlockEditMode isOverridableBlock patternBlockName setBlockEditingMode
         blocks mode reg
       = fold_left (fun st w => setBlockEditingMode w.1 w.2 st)
           (writes isOverridableBlock patternBlockName blocks mode) reg.
Proof.
  intros Hmode.
  assert (Htwo : Forall (fun w : string * string => w.2 = contentOnly \/ w.2 = disabled)
                   (writes isOverridableBlock patternBlockName blocks mode)).
  { apply writes_two_modes. tauto. }
  split; [apply writes_ids|]. split; [exact Htwo|]. split.
  - eapply Forall_impl; [exact Htwo|]. intros w [-> | ->]; by split.
  - intros reg. apply setBlockEditMode_fold.
Qed.

(** C2, as amended. Called with [undefined] on a forest with distinct
    client ids: every block the classifier accepts and that has no
    pattern block among its ancestors in the forest ends up
    ['contentOnly'], and every block the classifier rejects ends up
    ['disabled']. *)
Theorem undefined_mode_classifies (blocks : list (Block Attrs))
    (reg : gmap string string) (b : Block Attrs) :
  NoDup (clientId <$> allBlocks blocks) ->
  (exposed patternBlockName blocks b ->
   isOverridableBlock b = true ->
   setBlockEditMode isOverridableBlock patternBlockName setBlockEditingMode
     blocks None reg !! clientId b = Some contentOnly)
  /\ (b ∈ allBlocks blocks ->
      isOverridableBlock b = false ->
      setBlockEditMode isOverridableBlock patternBlockName setBlockEditingMode
        blocks None reg !! clientId b = Some disabled).
Proof.
  intros Hnd. split.
  - intros Hexp Hov. apply registry_assigned; [done|].
    pose proof (writes_exposed isOverridableBlock patternBlockName blocks b Hexp None) as Hw.
    rewrite editModeOf_undefined in Hw. by rewrite Hov in Hw.
  - intros Hb Hov. apply registry_assigned; [done|].
    apply writes_not_overridable; auto.
Qed.

(** C3, as amended. Called with [undefined] on a forest with distinct
    client ids: a pattern block that the classifier accepts and that has
    no pattern block among its ancestors ends up ['contentOnly']; and
    below any pattern block of the forest every child, and every deeper
    descendant, ends up ['disabled'], overridable or not. *)
Theorem pattern_block_children_disabled (blocks : list (Block Attrs))
    (reg : gmap string string) (p : Block Attrs) :
  NoDup (clientId <$> allBlocks blocks) ->
  name p = patternBlockName ->
  (exposed patternBlockName blocks p ->
   isOverridableBlock p = true ->
   setBlockEditMode isOverridableBlock patternBlockName setBlockEditingMode
     blocks None reg !! clientId p = Some contentOnly)
  /\ (p ∈ allBlocks blocks ->
      Forall (fun c =>
        setBlockEditMode isOverridableBlock patternBlockName setBlockEditingMode
          blocks None reg !! clientId c = Some disabled)
        (innerBlocks p)
      /\ Forall (fun c =>
        setBlockEditMode isOverridableBlock patternBlockName setBlockEditingMode
          blocks None reg !! clientId c = Some disabled)
        (allBlocks (innerBlocks p))).
Proof.
  intros Hnd Hname. split.
  - intros Hexp Hov. apply registry_assigned; [done|].
    pose proof (writes_exposed isOverridableBlock patternBlockName blocks p Hexp None) as Hw.
    rewrite editModeOf_undefined in Hw. by rewrite Hov in Hw.
  - intros Hp.
    assert (Hdesc : forall c, c ∈ allBlocks (innerBlocks p) ->
              setBlockEditMode isOverridableBlock patternBlockName setBlockEditingMode
                blocks None reg !! clientId c = Some disabled).
    { intros c Hc. apply registry_assigned; [done|].
      apply writes_nested. by eapply below_pattern_nested. }
    split; apply Forall_forall; intros c Hc; apply Hdesc; [|done].
    by apply elem_of_allBlocks_top.
Qed.


(** C7, as amended. Called with a supplied (non-empty) mode on a forest
    with distinct client ids, every block that has no pattern block among
    its ancestors ends up with the supplied mode, whether or not the
    classifier accepts it: the supplied mode takes precedence over the
    classifier. *)
Theorem supplied_mode_overrides_classifier (blocks : list (Block Attrs))
    (reg : gmap string string) (m : string) (b : Block Attrs) :
  m ≠ "" ->
  NoDup (clientId <$> allBlocks blocks) ->
  exposed patternBlockName blocks b ->
  setBlockEditMode isOverridableBlock patternBlockName setBlockEditingMode
    blocks (Some m) reg !! clientId b = Some m.
Proof.
  intros Hm Hnd Hexp. apply registry_assigned; [done|].
  pose proof (writes_exposed isOverridableBlock patternBlockName blocks b Hexp (Some m)) as Hw.
  by rewrite editModeOf_supplied in Hw.
Qed.

Lemma syncedMode_disabled_iff {Source} editingMode
    (getBlockBindingsSource : string -> option Source) :
  syncedMode editingMode (hasPatternOverridesSource getBlockBindingsSource)
    = Some disabled
  <-> editingMode = "disabled"
      \/ getBlockBindingsSource "core/pattern-overrides" = None.
Proof.
  unfold syncedMode, hasPatternOverridesSource.
  destruct (String.eqb_spec editingMode "disabled") as [Heq | Hne];
    destruct (getBlockBindingsSource "core/pattern-overrides") as [src|];
    simpl; split; auto; try discriminate.
  intros [? | ?]; [done|discriminate].
Qed.

Lemma syncedMode_cases {Source} editingMode
    (getBlockBindingsSource : string -> option Source) :
  syncedMode editingMode (hasPatternOverridesSource getBlockBindingsSource)
    = Some disabled
  \/ syncedMode editingMode (hasPatternOverridesSource getBlockBindingsSource)
    = None.
Proof. unfold syncedMode. destruct (_ || _); auto. Qed.

(** C10. The effect of [ReusableBlockEdit] calls [setBlockEditMode] on
    the inner blocks with the mode ['disabled'] exactly when the editing
    mode of the pattern block is ['disabled'] or no
    ['core/pattern-overrides'] source is registered, and with [undefined]
    otherwise. In the first case every inner block is written
    ['disabled']; in the second the classifier decides for every inner
    block that is not below a nested pattern block. *)
Theorem effect_forces_disabled_iff {Source} (innerBlocks : list (Block Attrs))
    (editingMode : string) (getBlockBindingsSource : string -> option Source) :
  let forced :=
    editingMode = "disabled"
    \/ getBlockBindingsSource "core/pattern-overrides" = None in
  let mode :=
    syncedMode editingMode (hasPatternOverridesSource getBlockBindingsSource) in
  (forall S (set : string -> string -> S -> S) st,
     syncEditingMode isOverridableBlock patternBlockName set innerBlocks
       editingMode getBlockBindingsSource st
     = setBlockEditMode isOverridableBlock patternBlockName set innerBlocks mode st)
  /\ (mode = Some disabled <-> forced)
  /\ (mode = None <-> ~ forced)
  /\ (forced ->
      syncEditingMode isOverridableBlock patternBlockName logEditMode innerBlocks
        editingMode getBlockBindingsSource []
      = ((fun b => (clientId b, disabled)) <$> allBlocks innerBlocks))
  /\ (~ forced ->
      forall b, exposed patternBlockName innerBlocks b ->
        (clientId b, if isOverridableBlock b then contentOnly else disabled)
        ∈ syncEditingMode isOverridableBlock patternBlockName logEditMode
            innerBlocks editingMode getBlockBindingsSource []).
Proof.
  intros forced mode.
  pose proof (syncedMode_disabled_iff editingMode getBlockBindingsSource) as Hiff.
  fold mode in Hiff. fold forced in Hiff.
  assert (Hnone : mode = None <-> ~ forced).
  { rewrite <- Hiff.
    destruct (syncedMode_cases editingMode getBlockBindingsSource) as [H | H];
      fold mode in H; rewrite H; split; done. }
  split; [reflexivity|]. split; [exact Hiff|]. split; [exact Hnone|]. split.
  - intros Hf. apply Hiff in Hf. unfold syncEditingMode. fold mode. rewrite Hf.
    apply writes_all_disabled.
  - intros Hf b Hb. apply Hnone in Hf. unfold syncEditingMode. fold mode.
    rewrite Hf.
    apply (writes_exposed isOverridableBlock patternBlockName innerBlocks b Hb None).
Qed.

End RegistryTheory.

(** * The propagator on the sample forests *)

Lemma sampleFlat_ids_distinct : NoDup (clientId <$> allBlocks sampleFlat).
Proof. apply (bool_decide_unpack _). vm_compute. exact I. Defined.

Lemma sampleNested_ids_distinct : NoDup (clientId <$> allBlocks sampleNested).
Proof. apply (bool_decide_unpack _). vm_compute. exact I. Defined.

Lemma sampleDeep_ids_distinct : NoDup (clientId <$> allBlocks sampleDeep).
Proof. apply (bool_decide_unpack _). vm_compute. exact I. Defined.

(** C2 fails as stated: in [sampleNested] the paragraph [x] is accepted
    by the classifier, the call is made with [undefined], and [x] is
    written ['disabled'], not ['contentOnly'], because it lies below a
    pattern block. *)
Lemma overridable_below_pattern_not_contentOnly :
  paragraph "x" true ∈ allBlocks sampleNested
  /\ flagged (paragraph "x" true) = true
  /\ NoDup (clientId <$> allBlocks sampleNested)
  /\ writes flagged corePattern sampleNested None
     = [("p", "disabled"); ("x", "disabled")]
  /\ setBlockEditMode flagged corePattern setBlockEditingMode sampleNested None ∅
       !! clientId (paragraph "x" true) = Some "disabled"
  /\ setBlockEditMode flagged corePattern setBlockEditingMode sampleNested None ∅
       !! clientId (paragraph "x" true) ≠ Some contentOnly.
Proof.
  split; [|split; [|split; [|split; [|split]]]].
  - apply list_elem_of_In. simpl. auto.
  - reflexivity.
  - exact sampleNested_ids_distinct.
  - reflexivity.
  - vm_compute. reflexivity.
  - vm_compute. discriminate.
Qed.

Lemma undefined_mode_classifies_witness :
  NoDup (clientId <$> allBlocks sampleFlat)
  /\ (exposed corePattern sampleFlat (paragraph "a" true)
      /\ flagged (paragraph "a" true) = true
      /\ setBlockEditMode flagged corePattern setBlockEditingMode sampleFlat None ∅
           !! "a" = Some contentOnly)
  /\ (paragraph "b" false ∈ allBlocks sampleFlat
      /\ flagged (paragraph "b" false) = false
      /\ setBlockEditMode flagged corePattern setBlockEditingMode sampleFlat None ∅
           !! "b" = Some disabled).
Proof.
  assert (Ha : exposed corePattern sampleFlat (paragraph "a" true)).
  { apply exposed_here. apply list_elem_of_In. simpl. auto. }
  assert (Hb : paragraph "b" false ∈ allBlocks sampleFlat).
  { apply list_elem_of_In. simpl. auto. }
  split; [exact sampleFlat_ids_distinct|]. split.
  - split; [exact Ha|]. split; [reflexivity|].
    exact (proj1 (undefined_mode_classifies flagged corePattern sampleFlat ∅
                    (paragraph "a" true) sampleFlat_ids_distinct) Ha eq_refl).
  - split; [exact Hb|]. split; [reflexivity|].
    exact (proj2 (undefined_mode_classifies flagged corePattern sampleFlat ∅
                    (paragraph "b" false) sampleFlat_ids_distinct) Hb eq_refl).
Defined.

(** C3 fails as stated: in [sampleDeep] the pattern block [p2] is
    accepted by the classifier, the call is made with [undefined], and
    [p2] is written ['disabled'], not ['contentOnly'], because it lies
    below the pattern block [p1]. *)
Lemma overridable_pattern_inside_pattern_not_contentOnly :
  patternOf "p2" true [paragraph "x" true] ∈ allBlocks sampleDeep
  /\ name (patternOf "p2" true [paragraph "x" true]) = corePattern
  /\ flagged (patternOf "p2" true [paragraph "x" true]) = true
  /\ NoDup (clientId <$> allBlocks sampleDeep)
  /\ writes flagged corePattern sampleDeep None
     = [("p1", "disabled"); ("p2", "disabled"); ("x", "disabled")]
  /\ setBlockEditMode flagged corePattern setBlockEditingMode sampleDeep None ∅
       !! clientId (patternOf "p2" true [paragraph "x" true]) = Some "disabled"
  /\ setBlockEditMode flagged corePattern setBlockEditingMode sampleDeep None ∅
       !! clientId (patternOf "p2" true [paragraph "x" true]) ≠ Some contentOnly.
Proof.
  split; [|split; [|split; [|split; [|split; [|split]]]]].
  - apply list_elem_of_In. simpl. auto.
  - reflexivity.
  - reflexivity.
  - exact sampleDeep_ids_distinct.
  - reflexivity.
  - vm_compute. reflexivity.
  - vm_compute. discriminate.
Qed.

Lemma pattern_block_children_disabled_witness :
  NoDup (clientId <$> allBlocks sampleFlat)
  /\ name (patternOf "p" true [paragraph "x" true; paragraph "y" false]) = corePattern
  /\ exposed corePattern sampleFlat
       (patternOf "p" true [paragraph "x" true; paragraph "y" false])
  /\ flagged (patternOf "p" true [paragraph "x" true; paragraph "y" false]) = true
  /\ setBlockEditMode flagged corePattern setBlockEditingMode sampleFlat None ∅
       !! "p" = Some contentOnly
  /\ Forall (fun c =>
       setBlockEditMode flagged corePattern setBlockEditingMode sampleFlat None ∅
         !! clientId c = Some disabled)
       [paragraph "x" true; paragraph "y" false].
Proof.
  assert (Hp : exposed corePattern sampleFlat
                 (patternOf "p" true [paragraph "x" true; paragraph "y" false])).
  { apply exposed_here. apply list_elem_of_In. simpl. auto. }
  pose proof (pattern_block_children_disabled flagged corePattern sampleFlat ∅
                (patternOf "p" true [paragraph "x" true; paragraph "y" false])
                sampleFlat_ids_distinct eq_refl) as [Hself Hkids].
  split; [exact sampleFlat_ids_distinct|]. split; [reflexivity|].
  split; [exact Hp|]. split; [reflexivity|]. split.
  - exact (Hself Hp eq_refl).
  - exact (proj1 (Hkids (exposed_allBlocks corePattern sampleFlat _ Hp))).
Defined.

(** C7 fails as stated: on [sampleFlat] the paragraph [a] is accepted by
    the classifier, and a call with the supplied mode ['default'] (or
    ['disabled']) writes that mode for [a], not ['contentOnly']. *)
Lemma supplied_mode_beats_overridable :
  flagged (paragraph "a" true) = true
  /\ paragraph "a" true ∈ sampleFlat
  /\ writes flagged corePattern sampleFlat (Some "default")
     = [("a", "default"); ("b", "default"); ("p", "default");
        ("x", "disabled"); ("y", "disabled")]
  /\ setBlockEditMode flagged corePattern setBlockEditingMode sampleFlat
       (Some "default") ∅ !! clientId (paragraph "a" true) = Some "default"
  /\ setBlockEditMode flagged corePattern setBlockEditingMode sampleFlat
       (Some "default") ∅ !! clientId (paragraph "a" true) ≠ Some contentOnly
  /\ setBlockEditMode flagged corePattern setBlockEditingMode sampleFlat
       (Some "disabled") ∅ !! clientId (paragraph "a" true) = Some "disabled"
  /\ setBlockEditMode flagged corePattern setBlockEditingMode sampleFlat
       (Some "disabled") ∅ !! clientId (paragraph "a" true) ≠ Some contentOnly.
Proof.
  split; [|split; [|split; [|split; [|split; [|split]]]]].
  - reflexivity.
  - apply list_elem_of_In. simpl. auto.
  - reflexivity.
  - vm_compute. reflexivity.
  - vm_compute. discriminate.
  - vm_compute. reflexivity.
  - vm_compute. discriminate.
Qed.

Lemma supplied_mode_overrides_classifier_witness :
  "default" ≠ ""
  /\ NoDup (clientId <$> allBlocks sampleFlat)
  /\ exposed corePattern sampleFlat (paragraph "a" true)
  /\ setBlockEditMode flagged corePattern setBlockEditingMode sampleFlat
       (Some "default") ∅ !! "a" = Some "default".
Proof.
  assert (Hm : "default" ≠ "") by discriminate.
  assert (Ha : exposed corePattern sampleFlat (paragraph "a" true)).
  { apply exposed_here. apply list_elem_of_In. simpl. auto. }
  split; [exact Hm|]. split; [exact sampleFlat_ids_distinct|]. split; [exact Ha|].
  exact (supplied_mode_overrides_classifier flagged corePattern sampleFlat ∅
           "default" (paragraph "a" true) Hm sampleFlat_ids_distinct Ha).
Defined.

Lemma every_block_written_once_witness :
  (@None string = Some disabled \/ @None string = None)
  /\ (writes flagged corePattern sampleFlat None).*1 = ["a"; "b"; "p"; "x"; "y"]
  /\ Forall (fun w => w.2 = contentOnly \/ w.2 = disabled)
       (writes flagged corePattern sampleFlat None).
Proof.
  assert (Hmode : @None string = Some disabled \/ @None string = None) by (right; reflexivity).
  pose proof (every_block_written_once flagged corePattern sampleFlat None Hmode)
    as (Hids & Hvals & _ & _).
  split; [exact Hmode|]. split; [exact Hids|exact Hvals].
Defined.

(** * What the pattern block shows *)



(** * The recursion guard *)

Section GuardTheory.
Context {T : Type} `{EqDecision T}.

Lemma isActive_true (t : T) (p : list T) : isActive t p = true <-> t ∈ p.
Proof. unfold isActive. apply bool_decide_eq_true. Qed.

Lemma isActive_false (t : T) (p : list T) : isActive t p = false <-> t ∉ p.
Proof. unfold isActive. apply bool_decide_eq_false. Qed.

Lemma isActive_head (t : T) (p : list T) : isActive t (t :: p) = true.
Proof. apply isActive_true. by left. Qed.

Lemma exit_inactive (t : T) (p : list T) : isActive t (exit t p) = false.
Proof.
  apply isActive_false. unfold exit. rewrite list_elem_of_filter. by intros [? _].
Qed.

Lemma exit_absent (t : T) (p : list T) : t ∉ p -> exit t p = p.
Proof.
  intros Ht. unfold exit. induction p as [|x p IH]; [done|].
  apply not_elem_of_cons in Ht as [Hne Ht].
  rewrite filter_cons_True by done. by rewrite IH.
Qed.

Lemma exit_head (t : T) (p : list T) : t ∉ p -> exit t (t :: p) = p.
Proof.
  intros Ht. unfold exit. rewrite filter_cons_False by (intros Hc; by apply Hc).
  by apply exit_absent.
Qed.

Lemma enter_active (t : T) (p : list T) : t ∈ p -> enter t p = (false, p).
Proof. intros Ht. unfold enter. by rewrite (proj2 (isActive_true t p) Ht). Qed.

Lemma enter_inactive (t : T) (p : list T) : t ∉ p -> enter t p = (true, t :: p).
Proof. intros Ht. unfold enter. by rewrite (proj2 (isActive_false t p) Ht). Qed.

(** C5. [enter t] answers true and puts [t] on the path exactly when
    [t] is not on it, and answers false and leaves the path alone when it
    is. So a second [enter t] with no [exit t] in between answers false
    and changes nothing, an [enter t] after [exit t] answers true again,
    and from a path without [t] the answers of enter, enter are true,
    false and those of enter, exit, enter are true, true. *)
Theorem enter_exit_laws (t : T) (p : list T) :
  (isActive t p = true <-> t ∈ p)
  /\ enter t p = (negb (isActive t p), if isActive t p then p else t :: p)
  /\ (enter t (enter t p).2) = (false, (enter t p).2)
  /\ (enter t (exit t (enter t p).2)).1 = true
  /\ (t ∉ p ->
      (enter t p).1 = true
      /\ (enter t (enter t p).2).1 = false
      /\ exit t (enter t p).2 = p
      /\ (enter t (exit t (enter t p).2)).1 = true)
  /\ (t ∈ p -> enter t p = (false, p)).
Proof.
  split; [apply isActive_true|]. split.
  { unfold enter. by destruct (isActive t p). }
  split.
  { apply enter_active. unfold enter. destruct (isActive t p) eqn:Hact; simpl.
    - by apply isActive_true.
    - by left. }
  split.
  { unfold enter at 1. by rewrite exit_inactive. }
  split.
  - intros Ht. rewrite (enter_inactive t p Ht). simpl.
    split; [done|]. split.
    + rewrite enter_active; [done|by left].
    + split; [by apply exit_head|].
      rewrite exit_head by done. by rewrite (enter_inactive t p Ht).
  - apply enter_active.
Qed.

End GuardTheory.

(** * The recursion wrapper and the render pass *)

Section RenderTheory.
Context {T : Type} `{EqDecision T}.

Lemma replay_app (evs evs' : list (Event T)) :
  forall p p',
    replay evs p = Some p' -> replay (evs ++ evs') p = replay evs' p'.
Proof.
  induction evs as [|[t|t] evs IH]; intros p p' Hr; simpl in *.
  - by injection Hr as ->.
  - destruct (isActive t p); [done|]. by apply IH.
  - destruct p as [|top rest]; [done|].
    destruct (decide (top = t)); [|done]. by apply IH.
Qed.

Lemma wrapper_blocked (ref : T) (edit : Render T (View T)) (g : Guard T) :
  ref ∈ path g ->
  ReusableBlockEditRecursionWrapper ref edit g = (Some RecursionWarning, g).
Proof.
  intros Href. unfold ReusableBlockEditRecursionWrapper, useHasRecursion.
  by rewrite (proj2 (isActive_true ref (path g)) Href).
Qed.

Lemma provider_acquires {V} (ref : T) (children : Render T V) (g : Guard T) :
  ref ∉ path g ->
  RecursionProvider ref children g =
  ((children (mkGuard (ref :: path g) (events g ++ [Entered ref]))).1,
   mkGuard
     (exit ref (path (children (mkGuard (ref :: path g) (events g ++ [Entered ref]))).2))
     (events (children (mkGuard (ref :: path g) (events g ++ [Entered ref]))).2
        ++ [Exited ref])).
Proof.
  intros Href. unfold RecursionProvider. rewrite (enter_inactive ref _ Href).
  by destruct (children _) as [v g2].
Qed.

Lemma wrapper_expands (ref : T) (edit : Render T (View T)) (g : Guard T) :
  ref ∉ path g ->
  ReusableBlockEditRecursionWrapper ref edit g = RecursionProvider ref edit g.
Proof.
  intros Href. unfold ReusableBlockEditRecursionWrapper, useHasRecursion.
  by rewrite (proj2 (isActive_false ref (path g)) Href).
Qed.

Lemma scoped_pure {V} (r : option V) : scoped (fun g : Guard T => (r, g)).
Proof.
  intros g. simpl. split; [done|]. exists []. by rewrite app_nil_r.
Qed.

Lemma scoped_mapView {A B} (f : A -> B) (step : Render T A) :
  scoped step -> scoped (fun g => mapView f (step g)).
Proof. intros Hs g. apply Hs. Qed.

Lemma scoped_renderAll (steps : list (Render T (View T))) :
  Forall scoped steps -> scoped (renderAll steps).
Proof.
  induction 1 as [|step steps Hstep _ IH]; intros g; simpl.
  - apply (scoped_pure (Some (@nil (View T))) g).
  - destruct (Hstep g) as (Hp1 & evs1 & He1 & Hr1).
    destruct (step g) as [[v|] g1]; simpl in *.
    + destruct (IH g1) as (Hp2 & evs2 & He2 & Hr2).
      destruct (renderAll steps g1) as [vs g2]; simpl in *.
      split; [congruence|]. exists (evs1 ++ evs2). split.
      * rewrite He2, He1. by rewrite app_assoc.
      * rewrite (replay_app _ _ _ _ Hr1). by rewrite <- Hp1.
    + split; [done|]. by exists evs1.
Qed.

Lemma scoped_provider {V} (ref : T) (children : Render T V) :
  scoped children -> scoped (RecursionProvider ref children).
Proof.
  intros Hc g. destruct (decide (ref ∈ path g)) as [Hin | Hout].
  - unfold RecursionProvider. rewrite (enter_active ref _ Hin). apply Hc.
  - rewrite (provider_acquires ref children g Hout).
    destruct (Hc (mkGuard (ref :: path g) (events g ++ [Entered ref])))
      as (Hp & evs & He & Hr).
    simpl in *. rewrite Hp. split; [by apply exit_head|].
    exists (Entered ref :: evs ++ [Exited ref]). split.
    + rewrite He. rewrite <- !app_assoc. reflexivity.
    + simpl. rewrite (proj2 (isActive_false ref _) Hout).
      rewrite (replay_app _ _ _ _ Hr). simpl. by rewrite decide_True.
Qed.

Lemma scoped_wrapper (ref : T) (edit : Render T (View T)) :
  scoped edit -> scoped (ReusableBlockEditRecursionWrapper ref edit).
Proof.
  intros He g. destruct (decide (ref ∈ path g)) as [Hin | Hout].
  - rewrite (wrapper_blocked ref edit g Hin). apply (scoped_pure _ g).
  - rewrite (wrapper_expands ref edit g Hout). by apply scoped_provider.
Qed.


Lemma replay_counts (evs : list (Event T)) :
  forall p p',
    replay evs p = Some p' ->
    forall t,
      length (filter (fun x => x = t) p') + releases t evs
      = length (filter (fun x => x = t) p) + acquisitions t evs.
Proof.
  unfold releases, acquisitions.
  induction evs as [|[u|u] evs IH]; intros p p' Hr t; simpl in Hr.
  - injection Hr as ->. reflexivity.
  - destruct (isActive u p); [done|]. specialize (IH _ _ Hr t).
    rewrite (filter_cons _ u p) in IH.
    rewrite (filter_cons _ (Entered u) evs), (filter_cons _ (Entered u) evs).
    repeat case_decide; simplify_eq; simpl in *; lia.
  - destruct p as [|top rest]; [done|].
    destruct (decide (top = u)) as [->|]; [|done]. specialize (IH _ _ Hr t).
    rewrite (filter_cons _ u rest).
    rewrite (filter_cons _ (Exited u) evs), (filter_cons _ (Exited u) evs).
    repeat case_decide; simplify_eq; simpl in *; lia.
Qed.

Lemma ReusableBlockEdit_cases {Rec B} hasResolved (record : option Rec)
    (innerBlocks blocks : list B) :
  (exists children,
     ReusableBlockEdit hasResolved record innerBlocks (Some blocks)
     = Renders (ContainerDiv children))
  \/ ReusableBlockEdit hasResolved record innerBlocks (Some blocks)
     = Renders (InnerBlocksDiv innerBlocks)
  \/ ReusableBlockEdit hasResolved record innerBlocks (Some blocks)
     = Renders (InnerBlocksDiv blocks).
Proof.
  unfold ReusableBlockEdit, innerBlocksValue.
  destruct (ReusableBlockEdit_children hasResolved record); [by eauto|].
  right. case_bool_decide; auto.
Qed.

Lemma Page_forall_ind {Rec} (P : Page T Rec -> Prop) :
  P Abandon ->
  (forall inner, Forall P inner -> P (Plain inner)) ->
  (forall ref hasResolved record innerBlocks blocks,
     Forall P innerBlocks -> Forall P (default [] blocks) ->
     P (Pattern ref hasResolved record innerBlocks blocks)) ->
  forall page, P page.
Proof.
  intros Habandon Hplain Hpattern.
  refine (fix go (page : Page T Rec) : P page :=
            let all := fix all (l : list (Page T Rec)) : Forall P l :=
                         match l with
                         | [] => Forall_nil_2 P
                         | x :: l' => Forall_cons_2 P x l' (go x) (all l')
                         end in
            match page with
            | Abandon => Habandon
            | Plain inner => Hplain inner (all inner)
            | Pattern ref hasResolved record innerBlocks blocks =>
                Hpattern ref hasResolved record innerBlocks blocks
                  (all innerBlocks)
                  match blocks return Forall P (default [] blocks) with
                  | Some blocks => all blocks
                  | None => Forall_nil_2 P
                  end
            end).
Qed.

(** The edit step that [render] wraps for a pattern block, with the
    blocks of the entity defined and with these [undefined]. *)
Lemma render_pattern {Rec} (ref : T) hasResolved (record : option Rec)
    (innerBlocks blocks : list (Page T Rec)) :
  render (Pattern ref hasResolved record innerBlocks (Some blocks)) =
  ReusableBlockEditRecursionWrapper ref (fun g =>
    match ReusableBlockEdit hasResolved record
            (map render innerBlocks) (Some (map render blocks)) with
    | Throws => (None, g)
    | Renders (ContainerDiv children) => (Some (PatternContainer ref children), g)
    | Renders (InnerBlocksDiv value) =>
        mapView (PatternInnerBlocks ref) (renderAll value g)
    end).
Proof. reflexivity. Qed.

Lemma render_pattern_undefined {Rec} (ref : T) hasResolved (record : option Rec)
    (innerBlocks : list (Page T Rec)) :
  render (Pattern ref hasResolved record innerBlocks None) =
  ReusableBlockEditRecursionWrapper ref (fun g => (None, g)).
Proof. reflexivity. Qed.

Lemma scoped_render {Rec} (page : Page T Rec) : scoped (render page).
Proof.
  induction page as [|inner IH|ref hasResolved record innerBlocks blocks IHi IHb]
    using Page_forall_ind.
  - apply (scoped_pure None).
  - simpl. apply (scoped_mapView PlainBlock (renderAll (map render inner))).
    apply scoped_renderAll. by apply Forall_fmap.
  - destruct blocks as [blocks|]; simpl in IHb.
    + rewrite render_pattern. apply scoped_wrapper.
      destruct (ReusableBlockEdit_cases hasResolved record
                  (map render innerBlocks) (map render blocks))
        as [[children ->] | [-> | ->]].
      * apply (scoped_pure (Some (PatternContainer ref children))).
      * apply (scoped_mapView (PatternInnerBlocks ref)
                 (renderAll (map render innerBlocks))).
        apply scoped_renderAll. by apply Forall_fmap.
      * apply (scoped_mapView (PatternInnerBlocks ref) (renderAll (map render blocks))).
        apply scoped_renderAll. by apply Forall_fmap.
    + rewrite render_pattern_undefined. apply scoped_wrapper.
      apply (scoped_pure None).
Qed.

Lemma mapView_Some {A B} (f : A -> B) (r : option A * Guard T) v g' :
  mapView f r = (Some v, g') -> exists a, r = (Some a, g') /\ v = f a.
Proof.
  destruct r as [[a|] g1]; unfold mapView; simpl; intros Heq; [|discriminate].
  injection Heq as <- <-. by exists a.
Qed.

Lemma guarded_renderAll (steps : list (Render T (View T))) :
  Forall scoped steps ->
  Forall guarded steps ->
  forall g vs g',
    renderAll steps g = (Some vs, g') ->
    forall t, t ∈ path g -> t ∉ flat_map expansions vs.
Proof.
  induction steps as [|step steps IH]; intros Hsc Hgu g vs g' Hrun t Ht.
  - simpl in Hrun. injection Hrun as <- <-. simpl. apply not_elem_of_nil.
  - apply Forall_cons in Hsc as [Hsc1 Hsc]. apply Forall_cons in Hgu as [Hgu1 Hgu].
    simpl in Hrun. pose proof (proj1 (Hsc1 g)) as Hpath.
    destruct (step g) as [[v|] g1] eqn:Hstep; [|discriminate]. simpl in Hpath.
    destruct (renderAll steps g1) as [[vs'|] g2] eqn:Hall; simpl in Hrun; [|discriminate].
    injection Hrun as <- <-. simpl. apply not_elem_of_app. split.
    + by apply (Hgu1 g v g1).
    + apply (IH Hsc Hgu g1 vs' g2 Hall). by rewrite Hpath.
Qed.

Lemma guarded_render {Rec} (page : Page T Rec) : guarded (render page).
Proof.
  induction page as [|inner IH|ref hasResolved record innerBlocks blocks IHi IHb]
    using Page_forall_ind; intros g v g' Hrun t Ht.
  - discriminate.
  - simpl in Hrun. apply mapView_Some in Hrun as (vs & Hall & ->). simpl.
    apply (guarded_renderAll (map render inner)) with (g := g) (g' := g'); try done.
    + apply Forall_fmap, Forall_forall. intros. apply scoped_render.
    + by apply Forall_fmap.
  - destruct (decide (ref ∈ path g)) as [Hin | Hout].
    { destruct blocks;
        [rewrite render_pattern in Hrun|rewrite render_pattern_undefined in Hrun];
        rewrite wrapper_blocked in Hrun by done; injection Hrun as <- <-;
        simpl; apply not_elem_of_nil. }
    destruct blocks as [blocks|]; simpl in IHb;
      [rewrite render_pattern in Hrun|rewrite render_pattern_undefined in Hrun];
      rewrite wrapper_expands, provider_acquires in Hrun by done;
      [|discriminate].
    assert (Hne : t ≠ ref) by (intros ->; done).
    assert (Hsub : forall pages : list (Page T Rec),
              Forall (fun page => guarded (render page)) pages ->
              forall g1 vs g2,
                path g1 = ref :: path g ->
                renderAll (map render pages) g1 = (Some vs, g2) ->
                t ∉ expansions (PatternInnerBlocks ref vs)).
    { intros pages Hall g1 vs g2 Hp Hr. simpl. apply not_elem_of_cons. split; [done|].
      apply (guarded_renderAll (map render pages)) with (g := g1) (g' := g2); try done.
      - apply Forall_fmap, Forall_forall. intros. apply scoped_render.
      - by apply Forall_fmap.
      - rewrite Hp. by right. }
    destruct (ReusableBlockEdit_cases hasResolved record
                (map render innerBlocks) (map render blocks))
      as [[children Hc] | [Hc | Hc]]; rewrite Hc in Hrun; simpl in Hrun.
    + injection Hrun as <- _. simpl.
      apply not_elem_of_cons. split; [done|apply not_elem_of_nil].
    + destruct (renderAll (map render innerBlocks) _) as [[vs|] g2] eqn:Hr;
        simpl in Hrun; [|discriminate]. injection Hrun as <- _.
      by apply (Hsub innerBlocks IHi (mkGuard (ref :: path g) (events g ++ [Entered ref])) vs g2 eq_refl).
    + destruct (renderAll (map render blocks) _) as [[vs|] g2] eqn:Hr;
        simpl in Hrun; [|discriminate]. injection Hrun as <- _.
      by apply (Hsub blocks IHb (mkGuard (ref :: path g) (events g ++ [Entered ref])) vs g2 eq_refl).
Qed.


(** C4. [ReusableBlockEditRecursionWrapper] on a pattern [ref]: when
    [ref] is on the render path it returns the recursion warning as a
    completed view, runs nothing of the edit component and leaves the
    guard untouched; when [ref] is not on the path, the edit component
    runs with [ref] registered on the path. In a whole render pass no
    pattern that is on the path, however far up, is rendered by the edit
    component anywhere in the resulting view. *)
Theorem wrapper_detects_recursion (ref : T) (edit : Render T (View T)) (g : Guard T) :
  (useHasRecursion ref g = true <-> ref ∈ path g)
  /\ (ref ∈ path g ->
      ReusableBlockEditRecursionWrapper ref edit g = (Some RecursionWarning, g))
  /\ (ref ∉ path g ->
      useHasRecursion ref (mkGuard (ref :: path g) (events g ++ [Entered ref])) = true
      /\ ReusableBlockEditRecursionWrapper ref edit g =
         ((edit (mkGuard (ref :: path g) (events g ++ [Entered ref]))).1,
          mkGuard
            (exit ref (path (edit (mkGuard (ref :: path g) (events g ++ [Entered ref]))).2))
            (events (edit (mkGuard (ref :: path g) (events g ++ [Entered ref]))).2
               ++ [Exited ref])))
  /\ (forall Rec (page : Page T Rec) v g',
        render page g = (Some v, g') ->
        forall t, t ∈ path g -> t ∉ expansions v).
Proof.
  split; [apply isActive_true|]. split; [apply wrapper_blocked|]. split.
  - intros Hout. split; [apply isActive_head|].
    rewrite wrapper_expands by done. by apply provider_acquires.
  - intros Rec page v g' Hrun. by apply (guarded_render page g v g').
Qed.

(** C8. Every render pass, completed or abandoned, hands the render path
    back as it found it. The guard events it added replay from that path
    back to it, each release undoing the most recent acquisition, and
    every pattern is released as often as it was acquired. So a pattern
    is reported as already rendering after the pass exactly when it was
    before, and a pattern that was not on the path is rendered by the
    edit component when asked for again. *)
Theorem render_releases_guard {Rec} (page : Page T Rec) (g : Guard T) :
  path (render page g).2 = path g
  /\ (exists evs,
        events (render page g).2 = events g ++ evs
        /\ replay evs (path g) = Some (path g)
        /\ forall t, releases t evs = acquisitions t evs)
  /\ (forall t, useHasRecursion t (render page g).2 = useHasRecursion t g)
  /\ (forall t edit,
        t ∉ path g ->
        ReusableBlockEditRecursionWrapper t edit (render page g).2
        = RecursionProvider t edit (render page g).2).
Proof.
  destruct (scoped_render page g) as (Hpath & evs & Hev & Hrep).
  split; [exact Hpath|]. split.
  - exists evs. split; [exact Hev|]. split; [exact Hrep|].
    intros t. pose proof (replay_counts evs _ _ Hrep t). lia.
  - split.
    + intros t. unfold useHasRecursion. by rewrite Hpath.
    + intros t edit Ht. apply wrapper_expands. by rewrite Hpath.
Qed.

End RenderTheory.

(** * The render pass on the sample pages *)

(** Rendering A inside A: the outer A is expanded, the inner one shows
    the warning, and A is acquired and released once. *)
Example selfReference_renders :
  render selfReference (mkGuard [] [])
  = (Some (PatternInnerBlocks "A" [RecursionWarning]),
     mkGuard [] [Entered "A"; Exited "A"]).
Proof. vm_compute. reflexivity. Qed.

(** A inside B inside A: the innermost A shows the warning. *)
Example mutualReference_renders :
  render mutualReference (mkGuard [] [])
  = (Some (PatternInnerBlocks "A"
             [PlainBlock [PatternInnerBlocks "B" [RecursionWarning]]]),
     mkGuard [] [Entered "A"; Entered "B"; Exited "B"; Exited "A"]).
Proof. vm_compute. reflexivity. Qed.

(** An abandoned render still releases what it acquired, and A renders
    again afterwards. *)
Example abandonedInside_renders :
  render abandonedInside (mkGuard [] [])
  = (None, mkGuard [] [Entered "A"; Entered "B"; Exited "B"; Exited "A"])
  /\ (render plainPattern (render abandonedInside (mkGuard [] [])).2).1
     = Some (PatternInnerBlocks "A" [PlainBlock []]).
Proof. split; vm_compute; reflexivity. Qed.

(** With the blocks of the entity [undefined] the edit component throws:
    nothing is shown, A is released, and A renders again afterwards. *)
Example undefinedBlocks_renders :
  render undefinedBlocks (mkGuard [] [])
  = (None, mkGuard [] [Entered "A"; Exited "A"])
  /\ (render plainPattern (render undefinedBlocks (mkGuard [] [])).2).1
     = Some (PatternInnerBlocks "A" [PlainBlock []]).
Proof. split; vm_compute; reflexivity. Qed.

(** * The propagator on [sampleFlat] *)

(** Called with [undefined]: the classifier decides at the top level, and
    the blocks below the pattern block [p] are disabled. *)
Example sampleFlat_undefined :
  writes flagged corePattern sampleFlat None
  = [("a", "contentOnly"); ("b", "disabled"); ("p", "contentOnly");
     ("x", "disabled"); ("y", "disabled")].
Proof. reflexivity. Qed.

(** Called with ['disabled']: everything is disabled. *)
Example sampleFlat_disabled :
  writes flagged corePattern sampleFlat (Some "disabled")
  = [("a", "disabled"); ("b", "disabled"); ("p", "disabled");
     ("x", "disabled"); ("y", "disabled")].
Proof. reflexivity. Qed.

(** The effect of the component on [sampleFlat]: forced when the pattern
    block is disabled or the overrides source is missing. *)
Example sampleFlat_effect :
  syncEditingMode flagged corePattern logEditMode sampleFlat "default"
    (fun _ : string => Some tt) []
  = writes flagged corePattern sampleFlat None
  /\ syncEditingMode flagged corePattern logEditMode sampleFlat "disabled"
       (fun _ : string => Some tt) []
     = writes flagged corePattern sampleFlat (Some "disabled")
  /\ syncEditingMode flagged corePattern logEditMode sampleFlat "default"
       (fun _ : string => @None unit) []
     = writes flagged corePattern sampleFlat (Some "disabled").
Proof. repeat split. Qed.

(** * The inferred layout *)

Section InferredLayoutTheory.
Context {Attrs Layout : Type}.
Variable align : Attrs -> option string.
Variable layoutType : Layout -> option string.

Lemma isConstrained_spec (parentLayout : option Layout) :
  isConstrained layoutType parentLayout = true
  <-> exists l, parentLayout = Some l /\ layoutType l = Some "constrained".
Proof.
  unfold isConstrained. destruct parentLayout as [l|]; [|split; [done|by intros (? & ? & ?)]].
  destruct (layoutType l) as [t|] eqn:Ht.
  - destruct (String.eqb_spec t "constrained") as [-> | Hne].
    + split; [by eauto|done].
    + split; [done|]. intros (l' & Hl & Ht'). congruence.
  - split; [done|]. intros (l' & Hl & Ht'). congruence.
Qed.

Lemma hasFullAlignment_spec (blocks : list (Block Attrs)) :
  hasFullAlignment align blocks = true
  <-> exists b a,
        b ∈ blocks /\ align (attributes b) = Some a /\ a ∈ fullAlignments.
Proof.
  unfold hasFullAlignment. rewrite existsb_exists. split.
  - intros (b & Hb & Hal). destruct (align (attributes b)) as [a|] eqn:Ha; [|done].
    exists b, a. split; [by apply list_elem_of_In|]. split; [done|].
    by apply bool_decide_eq_true in Hal.
  - intros (b & a & Hb & Ha & Hin). exists b. split; [by apply list_elem_of_In|].
    rewrite Ha. by apply bool_decide_eq_true.
Qed.

Lemma useInferredLayout_set (current : Alignment) (b : Block Attrs) bs
    (parentLayout : option Layout) :
  current ≠ AlignUndefined ->
  useInferredLayout align layoutType current (Some (b :: bs)) parentLayout
  = (mkInferredLayout current
       (if alignmentTruthy current then parentLayout else None), current).
Proof. intros Hc. by destruct current. Qed.

Lemma useInferredLayout_defined (current : Alignment) (b : Block Attrs) bs
    (parentLayout : option Layout) :
  (useInferredLayout align layoutType current (Some (b :: bs)) parentLayout).2
  ≠ AlignUndefined.
Proof.
  unfold useInferredLayout. destruct current; try done;
    by destruct (isConstrained layoutType parentLayout
                 && hasFullAlignment align (b :: bs)).
Qed.

(** X1. The first time [useInferredLayout] sees loaded blocks, it infers
    ['full'] exactly when the parent layout is constrained and one of the
    top-level blocks is aligned full, wide, left or right, and [null]
    otherwise; it stores that value in the ref, and hands the parent
    layout on only with ['full']. *)
Theorem first_inferred_alignment (blocks : list (Block Attrs))
    (parentLayout : option Layout) :
  blocks ≠ [] ->
  let result := useInferredLayout align layoutType AlignUndefined
                  (Some blocks) parentLayout in
  let full :=
    (exists l, parentLayout = Some l /\ layoutType l = Some "constrained")
    /\ (exists b a,
          b ∈ blocks /\ align (attributes b) = Some a /\ a ∈ fullAlignments) in
  (full ->
   result = (mkInferredLayout (AlignString "full") parentLayout, AlignString "full"))
  /\ (~ full -> result = (mkInferredLayout AlignNull None, AlignNull)).
Proof.
  intros Hne result full. subst result.
  destruct blocks as [|b bs]; [done|]. unfold useInferredLayout.
  destruct (isConstrained layoutType parentLayout) eqn:Hc;
    destruct (hasFullAlignment align (b :: bs)) eqn:Hf; cbn [andb fst snd].
  - split; [done|]. intros Hn. exfalso. apply Hn. split.
    + by apply isConstrained_spec.
    + by apply hasFullAlignment_spec.
  - split; [|done]. intros [_ Hb]. apply hasFullAlignment_spec in Hb. congruence.
  - split; [|done]. intros [Hl _]. apply isConstrained_spec in Hl. congruence.
  - split; [|done]. intros [Hl _]. apply isConstrained_spec in Hl. congruence.
Qed.

(** X2. The inferred alignment is sticky: after one render with loaded
    blocks, every later render, whatever its blocks and parent layout,
    returns that same alignment (and the parent layout of that render
    when the alignment is truthy), or [{}] when its blocks are missing
    or empty. *)
Theorem inferred_alignment_is_sticky (current : Alignment)
    (blocks : list (Block Attrs)) (parentLayout : option Layout)
    (renders : list (option (list (Block Attrs)) * option Layout)) :
  blocks ≠ [] ->
  let first := useInferredLayout align layoutType current (Some blocks) parentLayout in
  Forall2
    (fun render result =>
       match render.1 with
       | Some (_ :: _) =>
           inferredAlignment result = inferredAlignment first.1
           /\ inferredLayout result
              = (if alignmentTruthy (inferredAlignment first.1) then render.2 else None)
       | _ => result = mkInferredLayout AlignUndefined None
       end)
    renders (inferredLayouts align layoutType first.2 renders).
Proof.
  intros Hne first.
  destruct blocks as [|b bs]; [done|].
  assert (Hdef : first.2 ≠ AlignUndefined) by apply useInferredLayout_defined.
  assert (Hsame : inferredAlignment first.1 = first.2).
  { subst first. unfold useInferredLayout. destruct current; try done;
      by destruct (isConstrained layoutType parentLayout
                   && hasFullAlignment align (b :: bs)). }
  rewrite Hsame. clearbody first. clear Hsame.
  induction renders as [|[bl pl] renders IH]; simpl; [constructor|].
  destruct bl as [[|b' bs']|].
  - simpl. constructor; [done|apply IH].
  - rewrite useInferredLayout_set by done. constructor; [done|apply IH].
  - simpl. constructor; [done|apply IH].
Qed.

(** X3. Running the memoised callback again with the same arguments
    changes nothing: it returns the same result and leaves the ref as
    the first run left it. The ref only ever moves from [undefined] to
    [null] or ['full']. *)
Theorem inferred_layout_rerun (current : Alignment)
    (blocks : option (list (Block Attrs))) (parentLayout : option Layout) :
  let first := useInferredLayout align layoutType current blocks parentLayout in
  useInferredLayout align layoutType first.2 blocks parentLayout = first
  /\ (first.2 = current
      \/ current = AlignUndefined
         /\ (first.2 = AlignNull \/ first.2 = AlignString "full")).
Proof.
  intros first. subst first. unfold useInferredLayout.
  destruct blocks as [[|b bs]|]; [by auto| |by auto].
  destruct current; [|by auto|by auto].
  destruct (isConstrained layoutType parentLayout && hasFullAlignment align (b :: bs));
    cbn; auto.
Qed.

End InferredLayoutTheory.

(** * Running the effect again *)

Section EffectTheory.
Context {Attrs : Type}.
Variable isOverridableBlock : Block Attrs -> bool.
Variable patternBlockName : string.

Lemma fold_writes_same_keys (ws : list (string * string)) :
  forall (reg reg' : gmap string string) id,
    id ∈ ws.*1 ->
    fold_left (fun st w => setBlockEditingMode w.1 w.2 st) ws reg !! id
    = fold_left (fun st w => setBlockEditingMode w.1 w.2 st) ws reg' !! id.
Proof.
  induction ws as [|[k v] ws IH]; intros reg reg' id Hid.
  - by apply elem_of_nil in Hid.
  - simpl in *. destruct (decide (id ∈ ws.*1)) as [Hin | Hout].
    + by apply IH.
    + apply elem_of_cons in Hid as [-> | Hid]; [|done].
      rewrite !fold_writes_untouched by done.
      unfold setBlockEditingMode. by rewrite !lookup_insert_eq.
Qed.

Lemma fold_writes_dom (ws : list (string * string)) :
  forall reg : gmap string string,
    dom (fold_left (fun st w => setBlockEditingMode w.1 w.2 st) ws reg)
    = dom reg ∪ list_to_set ws.*1.
Proof.
  induction ws as [|[k v] ws IH]; intros reg; simpl.
  - by rewrite union_empty_r_L.
  - rewrite IH. unfold setBlockEditingMode. rewrite dom_insert_L.
    rewrite (union_comm_L {[k]} (dom reg)). by rewrite union_assoc_L.
Qed.

(** X4. When the effect of [ReusableBlockEdit] runs again on the same
    inner blocks, after the editing mode of the pattern block or the
    registered sources changed, the registry it leaves is the one the
    last run alone would leave: nothing of an earlier run survives, and
    running it twice with the same inputs changes nothing. *)
Theorem effect_last_run_wins {Source1 Source2} (innerBlocks : list (Block Attrs))
    (editingMode1 editingMode2 : string)
    (getBlockBindingsSource1 : string -> option Source1)
    (getBlockBindingsSource2 : string -> option Source2)
    (reg : gmap string string) :
  syncEditingMode isOverridableBlock patternBlockName setBlockEditingMode
    innerBlocks editingMode2 getBlockBindingsSource2
    (syncEditingMode isOverridableBlock patternBlockName setBlockEditingMode
       innerBlocks editingMode1 getBlockBindingsSource1 reg)
  = syncEditingMode isOverridableBlock patternBlockName setBlockEditingMode
      innerBlocks editingMode2 getBlockBindingsSource2 reg.
Proof.
  unfold syncEditingMode. rewrite !setBlockEditMode_fold.
  apply map_eq. intros id.
  destruct (decide (id ∈ clientId <$> allBlocks innerBlocks)) as [Hin | Hout].
  - apply fold_writes_same_keys. by rewrite writes_ids.
  - rewrite !fold_writes_untouched; first done; by rewrite writes_ids.
Qed.

(** X5. [setBlockEditMode] touches the registry entries of the blocks of
    the forest and no others: the entry of any other client id is what
    it was, and the registry afterwards has an entry for exactly the ids
    it had before and the client ids of the forest. *)
Theorem walk_touches_only_the_forest (blocks : list (Block Attrs))
    (mode : option string) (reg : gmap string string) :
  (forall id,
     id ∉ clientId <$> allBlocks blocks ->
     setBlockEditMode isOverridableBlock patternBlockName setBlockEditingMode
       blocks mode reg !! id = reg !! id)
  /\ dom (setBlockEditMode isOverridableBlock patternBlockName setBlockEditingMode
            blocks mode reg)
     = dom reg ∪ list_to_set (clientId <$> allBlocks blocks).
Proof.
  split.
  - intros id Hid. by apply registry_untouched.
  - rewrite setBlockEditMode_fold, fold_writes_dom. by rewrite writes_ids.
Qed.

End EffectTheory.

(** * The background size controls *)

Lemma or_else_truthy (s : string) (b : option string) :
  s ≠ "" -> or_else (Some s) b = Some s.
Proof. intros Hs. unfold or_else. by destruct (String.eqb_spec s ""). Qed.

Lemma currentValueForToggle_size (style inheritedValue : option Style)
    (defaultBackgroundSize : option string) (s : string) :
  sizeValue style inheritedValue = Some s ->
  currentValueForToggle style inheritedValue defaultBackgroundSize
  = if bool_decide (s = "cover") then Some "cover"
    else if bool_decide (s = "contain") then Some "contain"
    else Some "auto".
Proof.
  intros Hs. unfold currentValueForToggle. rewrite Hs.
  repeat case_bool_decide; simplify_eq; simpl; try done.
Qed.

Section BackgroundTheory.
Variable style inheritedValue : option Style.
Variable defaultBackgroundSize : option string.

(** X6. The size toggle reads the block's own [backgroundSize] when
    that is a non-empty string and the inherited one otherwise: an own
    empty string counts as not set.  The size that is read selects
    exactly one of the three options: Cover for ['cover'], Contain for
    ['contain'] and Tile (['auto']) for anything else, an inherited
    empty string included.  With the own size [undefined] or empty and
    no inherited size the toggle shows the default.  The width input is
    enabled exactly when the toggle shows Tile. *)
Theorem toggle_shows_one_option :
  (forall s,
     backgroundOf style ≫= backgroundSize = Some s -> s ≠ "" ->
     currentValueForToggle style inheritedValue defaultBackgroundSize
     = if bool_decide (s = "cover") then Some "cover"
       else if bool_decide (s = "contain") then Some "contain"
       else Some "auto")
  /\ (backgroundOf style ≫= backgroundSize = None
      \/ backgroundOf style ≫= backgroundSize = Some "" ->
      (forall s,
         backgroundOf inheritedValue ≫= backgroundSize = Some s ->
         currentValueForToggle style inheritedValue defaultBackgroundSize
         = if bool_decide (s = "cover") then Some "cover"
           else if bool_decide (s = "contain") then Some "contain"
           else Some "auto")
      /\ (backgroundOf inheritedValue ≫= backgroundSize = None ->
          currentValueForToggle style inheritedValue defaultBackgroundSize
          = defaultBackgroundSize))
  /\ (unitControlDisabled style inheritedValue defaultBackgroundSize = false
      <-> currentValueForToggle style inheritedValue defaultBackgroundSize
          = Some "auto").
Proof.
  split; [|split].
  - intros s Hown Hs. apply currentValueForToggle_size.
    unfold sizeValue. rewrite Hown. by apply or_else_truthy.
  - intros Hown.
    assert (Hsize : sizeValue style inheritedValue
                    = backgroundOf inheritedValue ≫= backgroundSize).
    { unfold sizeValue. by destruct Hown as [-> | ->]. }
    split.
    + intros s Hinh. apply currentValueForToggle_size. by rewrite Hsize.
    + intros Hinh. unfold currentValueForToggle. rewrite Hsize, Hinh. reflexivity.
  - unfold unitControlDisabled.
    destruct (currentValueForToggle style inheritedValue defaultBackgroundSize)
      as [c|]; repeat case_bool_decide; simplify_eq; simpl; split; done.
Qed.

(** X7. After Cover or Contain is chosen, the panel shows that choice
    whatever was set or inherited before: the position is cleared, and
    with Contain the repeat is ['no-repeat'] and the Repeat toggle is
    off, with Cover the repeat is cleared and the Repeat toggle is
    disabled. *)
Theorem choosing_cover_or_contain (style' : option Style) (next : string) :
  next = "cover" \/ next = "contain" ->
  backgroundOf style'
  = Some (updateBackgroundSize style inheritedValue defaultBackgroundSize (Some next)) ->
  currentValueForToggle style' inheritedValue defaultBackgroundSize = Some next
  /\ backgroundOf style' ≫= backgroundPosition = None
  /\ backgroundOf style' ≫= backgroundImage = backgroundOf style ≫= backgroundImage
  /\ (next = "contain" ->
      backgroundOf style' ≫= backgroundRepeat = Some "no-repeat"
      /\ repeatCheckedValue style' inheritedValue defaultBackgroundSize = false)
  /\ (next = "cover" ->
      backgroundOf style' ≫= backgroundRepeat = None
      /\ repeatToggleDisabled style' inheritedValue defaultBackgroundSize = true).
Proof.
  intros Hnext Hbg.
  assert (Hsize : sizeValue style' inheritedValue = Some next).
  { unfold sizeValue. rewrite Hbg. simpl. unfold updateBackgroundSize.
    destruct Hnext as [-> | ->]; repeat case_bool_decide; simplify_eq;
      repeat case_match; simplify_eq; simpl in *; try done. }
  assert (Hcur : currentValueForToggle style' inheritedValue defaultBackgroundSize
                 = Some next).
  { rewrite (currentValueForToggle_size style' inheritedValue defaultBackgroundSize
               next Hsize).
    destruct Hnext as [-> | ->]; repeat case_bool_decide; simplify_eq; done. }
  split; [exact Hcur|].
  assert (Hfields :
    backgroundOf style' ≫= backgroundPosition = None
    /\ backgroundOf style' ≫= backgroundImage = backgroundOf style ≫= backgroundImage
    /\ backgroundOf style' ≫= backgroundRepeat
       = if bool_decide (next = "contain") then Some "no-repeat" else None).
  { rewrite Hbg. simpl. unfold updateBackgroundSize.
    destruct Hnext as [-> | ->]; repeat case_bool_decide; simplify_eq;
      repeat case_match; simplify_eq; simpl in *;
      destruct (backgroundOf style); simpl; done. }
  destruct Hfields as (Hpos & Himg & Hrep).
  split; [exact Hpos|]. split; [exact Himg|]. split.
  - intros ->. rewrite bool_decide_eq_true_2 in Hrep by done. split; [done|].
    unfold repeatCheckedValue, repeatValue. by rewrite Hrep.
  - intros ->. rewrite bool_decide_eq_false_2 in Hrep by done. split; [done|].
    unfold repeatToggleDisabled. rewrite Hcur. by apply bool_decide_eq_true_2.
Qed.


(** X8. Switching from Cover or Contain to Tile sets the size to
    ['auto'] and clears the repeat; the position becomes ['50% 0'] when
    the block's own image has a record id and is otherwise the position
    that was in effect. Afterwards the toggle shows Tile and the width
    input is enabled. *)
Theorem switching_to_tile (style' : option Style) :
  currentValueForToggle style inheritedValue defaultBackgroundSize = Some "cover"
  \/ currentValueForToggle style inheritedValue defaultBackgroundSize
     = Some "contain" ->
  backgroundOf style'
  = Some (updateBackgroundSize style inheritedValue defaultBackgroundSize
            (Some "auto")) ->
  backgroundOf style' ≫= backgroundSize = Some "auto"
  /\ backgroundOf style' ≫= backgroundRepeat = None
  /\ backgroundOf style' ≫= backgroundPosition
     = (if truthyId (imageId (backgroundOf style ≫= backgroundImage))
        then Some "50% 0"
        else positionValue style inheritedValue)
  /\ currentValueForToggle style' inheritedValue defaultBackgroundSize = Some "auto"
  /\ unitControlDisabled style' inheritedValue defaultBackgroundSize = false.
Proof.
  intros Hcur Hbg.
  assert (Hfields :
    backgroundOf style' ≫= backgroundSize = Some "auto"
    /\ backgroundOf style' ≫= backgroundRepeat = None
    /\ backgroundOf style' ≫= backgroundPosition
       = (if truthyId (imageId (backgroundOf style ≫= backgroundImage))
          then Some "50% 0"
          else positionValue style inheritedValue)).
  { rewrite Hbg. simpl. unfold updateBackgroundSize.
    destruct Hcur as [-> | ->]; repeat case_bool_decide; simplify_eq; simpl; done. }
  destruct Hfields as (Hsize & Hrep & Hpos).
  assert (Hcur' : currentValueForToggle style' inheritedValue defaultBackgroundSize
                  = Some "auto").
  { rewrite (currentValueForToggle_size _ _ _ "auto"); [done|].
    unfold sizeValue. by rewrite Hsize. }
  repeat split; try done.
  unfold unitControlDisabled. by rewrite Hcur'.
Qed.

(** X9. Clicking the Repeat toggle flips it: whatever the style held,
    after the value it writes is in the style the toggle shows the
    opposite state. *)
Theorem repeat_toggle_flips (style' : option Style) :
  backgroundOf style' ≫= backgroundRepeat
  = Some (toggleIsRepeated style inheritedValue defaultBackgroundSize) ->
  repeatCheckedValue style' inheritedValue defaultBackgroundSize
  = negb (repeatCheckedValue style inheritedValue defaultBackgroundSize).
Proof.
  intros Hrep. unfold toggleIsRepeated in Hrep.
  destruct (repeatCheckedValue style inheritedValue defaultBackgroundSize);
    unfold repeatCheckedValue, repeatValue; rewrite Hrep; simpl.
  - reflexivity.
  - by rewrite andb_false_r.
Qed.

(** X10. While the toggle shows Tile, the size written is never empty:
    clearing the width input writes ['auto'], and after any width other
    than ['cover'] and ['contain'] is written the toggle still shows
    Tile. *)
Theorem tile_keeps_a_size (style' : option Style) (next : option string) :
  currentValueForToggle style inheritedValue defaultBackgroundSize = Some "auto" ->
  backgroundOf style'
  = Some (updateBackgroundSize style inheritedValue defaultBackgroundSize next) ->
  truthy (backgroundOf style' ≫= backgroundSize) = true
  /\ (truthy next = false -> backgroundOf style' ≫= backgroundSize = Some "auto")
  /\ (truthy next = true -> backgroundOf style' ≫= backgroundSize = next)
  /\ (next ≠ Some "cover" -> next ≠ Some "contain" ->
      currentValueForToggle style' inheritedValue defaultBackgroundSize
      = Some "auto").
Proof.
  intros Hcur Hbg.
  assert (Hsize : backgroundOf style' ≫= backgroundSize
                  = if truthy next then next else Some "auto").
  { rewrite Hbg. simpl. unfold updateBackgroundSize. rewrite Hcur.
    destruct (truthy next); repeat case_bool_decide; simplify_eq; simpl; done. }
  rewrite Hsize. split; [|split; [|split]].
  - by destruct (truthy next) eqn:Ht.
  - by intros ->.
  - by intros ->.
  - intros Hc1 Hc2.
    assert (exists s, (if truthy next then next else Some "auto") = Some s
                      /\ s ≠ "cover" /\ s ≠ "contain") as (s & Hs & Hs1 & Hs2).
    { destruct next as [n|]; simpl.
      - destruct (String.eqb_spec n ""); simpl.
        + by exists "auto".
        + exists n. repeat split; congruence.
      - by exists "auto". }
    rewrite (currentValueForToggle_size _ _ _ s).
    + repeat case_bool_decide; simplify_eq; done.
    + unfold sizeValue. rewrite Hsize, Hs.
      destruct (String.eqb_spec s "") as [-> | Hne].
      * destruct next as [n|]; simpl in Hs; [|done].
        destruct (String.eqb_spec n ""); simpl in Hs; [done|congruence].
      * by apply or_else_truthy.
Qed.

(** X11. The help text under the size toggle agrees with the toggle
    whenever the size in effect is not the empty string: Cover reads
    "covers the space evenly", Contain reads "contained without
    distortion", Tile reads "fixed width". *)
Theorem help_text_matches_toggle :
  sizeValue style inheritedValue ≠ Some "" ->
  (currentValueForToggle style inheritedValue defaultBackgroundSize = Some "cover" ->
   sizeHelp style inheritedValue defaultBackgroundSize
   = "Image covers the space evenly.")
  /\ (currentValueForToggle style inheritedValue defaultBackgroundSize
      = Some "contain" ->
      sizeHelp style inheritedValue defaultBackgroundSize
      = "Image is contained without distortion.")
  /\ (currentValueForToggle style inheritedValue defaultBackgroundSize = Some "auto" ->
      sizeHelp style inheritedValue defaultBackgroundSize
      = "Image has a fixed width.").
Proof.
  intros Hne. unfold sizeHelp, currentValueForToggle, backgroundSizeHelpText.
  destruct (sizeValue style inheritedValue) as [s|] eqn:Hs.
  - assert (Hs' : s ≠ "") by congruence.
    rewrite (or_else_truthy s _ Hs').
    repeat split; intros Hc; repeat case_bool_decide; simplify_eq; simpl in *;
      try done; naive_solver.
  - simpl. repeat split; intros ->; repeat case_bool_decide; simplify_eq;
      try done; naive_solver.
Qed.

End BackgroundTheory.

(** With an empty inherited size and no default the toggle shows Tile
    while the help text is the one of Cover. *)
Example help_text_for_empty_size :
  currentValueForToggle None
    (Some (mkStyle (Some (mkBackground None (Some "") None None ∅)) ∅)) None
  = Some "auto"
  /\ sizeHelp None
       (Some (mkStyle (Some (mkBackground None (Some "") None None ∅)) ∅)) None
     = "Image covers the space evenly.".
Proof. split; reflexivity. Qed.

(** * Selecting a background image *)

(** X12. [onSelectMedia] writes a background only for a media object
    with a non-empty URL that is not a blob URL and whose type, where it
    has one, is ['image']. The image it writes carries that URL and the
    media's id with source ['file']; size, repeat and the other
    properties of the style are kept; a position already set is kept, and
    ['50% 0'] is written only when no position is set and the size is
    ['auto'] or not set. *)
Theorem selected_media_is_an_image (isBlobURL : string -> bool)
    (style : option Style) (media : option Media) (value : Background) :
  onSelectMedia isBlobURL style media = SetBackground value ->
  exists m url,
    media = Some m /\ mediaUrl m = Some url /\ url ≠ "" /\ isBlobURL url = false
    /\ (truthy (media_type m) = true -> media_type m = Some "image")
    /\ (truthy (media_type m) = false -> truthy (mediaType m) = true ->
        mediaType m = Some "image")
    /\ backgroundImage value
       = Some (ImageObject (mediaId m) (Some url) (or_else (mediaTitle m) None)
                 (Some "file"))
    /\ backgroundSize value = backgroundOf style ≫= backgroundSize
    /\ backgroundRepeat value = backgroundOf style ≫= backgroundRepeat
    /\ backgroundOther value
       = backgroundOther (default emptyBackground (backgroundOf style))
    /\ (truthy (backgroundOf style ≫= backgroundPosition) = true ->
        backgroundPosition value = backgroundOf style ≫= backgroundPosition)
    /\ (backgroundPosition value ≠ backgroundOf style ≫= backgroundPosition ->
        backgroundPosition value = Some "50% 0"
        /\ (backgroundOf style ≫= backgroundSize = Some "auto"
            \/ truthy (backgroundOf style ≫= backgroundSize) = false)).
Proof.
  unfold onSelectMedia. intros Hsel.
  destruct media as [m|]; [|done].
  destruct (mediaUrl m) as [url|] eqn:Hurl; [|done].
  destruct (String.eqb_spec url "") as [|Hne]; [done|].
  destruct (isBlobURL url) eqn:Hblob; [done|].
  assert (Htypes :
    (truthy (media_type m) = true -> media_type m = Some "image")
    /\ (truthy (media_type m) = false -> truthy (mediaType m) = true ->
        mediaType m = Some "image")
    /\ SetBackground value
       = SetBackground
           (mkBackground
              (Some (ImageObject (mediaId m) (Some url)
                       (or_else (mediaTitle m) None) (Some "file")))
              (backgroundSize (default emptyBackground (backgroundOf style)))
              (if negb (truthy (backgroundOf style ≫= backgroundPosition))
                  && (bool_decide (backgroundOf style ≫= backgroundSize = Some "auto")
                      || negb (truthy (backgroundOf style ≫= backgroundSize)))
               then Some "50% 0"
               else backgroundOf style ≫= backgroundPosition)
              (backgroundRepeat (default emptyBackground (backgroundOf style)))
              (backgroundOther (default emptyBackground (backgroundOf style))))).
  { destruct (truthy (media_type m)); destruct (truthy (mediaType m));
      simpl in Hsel; repeat case_bool_decide; simpl in Hsel; try done;
      by repeat split. }
  destruct Htypes as (Hty1 & Hty2 & Hval). injection Hval as ->.
  exists m, url. simpl. repeat split; try done.
  - by destruct (backgroundOf style).
  - by destruct (backgroundOf style).
  - intros Hpos. by rewrite Hpos.
  - destruct (truthy (backgroundOf style ≫= backgroundPosition)); simpl in *; [done|].
    by case_match.
  - destruct (truthy (backgroundOf style ≫= backgroundPosition)); simpl in *; [done|].
    case_bool_decide; simpl in *; [by left|].
    destruct (truthy (backgroundOf style ≫= backgroundSize)); simpl in *;
      [done|by right].
Qed.

(** X13. Resetting the panel empties the background and nothing else:
    after [resetAllFilter] the style has no background image value and
    no background size value, its other properties are untouched, and
    with nothing inherited the size, position and repeat controls are
    not shown. *)
Theorem reset_clears_the_background (previousValue : option Style)
    (settingSize settingPosition settingRepeat : bool) :
  hasBackgroundImageValue (Some (resetAllFilter previousValue)) = false
  /\ hasBackgroundSizeValue (Some (resetAllFilter previousValue)) = false
  /\ styleOther (resetAllFilter previousValue)
     = match previousValue with Some v => styleOther v | None => ∅ end
  /\ shouldShowBackgroundImageControls
       (Some (resetAllFilter previousValue)) (Some (resetAllFilter previousValue))
       settingSize settingPosition settingRepeat = false
  /\ resetAllFilter (Some (resetAllFilter previousValue))
     = resetAllFilter previousValue.
Proof. by destruct previousValue. Qed.

(** * Moving a grid item *)

Section GridTheory.
Variable layout : option Grid.Layout.
Variable parentLayout : option Grid.ParentLayout.

Local Open Scope Z_scope.

Lemma reachedCount_false (count : option Z) (last : Z) :
  reachedCount count last = false
  <-> count = None \/ count = Some 0 \/ exists n, count = Some n /\ last < n.
Proof.
  unfold reachedCount. destruct count as [n|]; [|by split; [left|]].
  destruct (Z.eqb_spec n 0) as [-> | Hn]; simpl.
  - split; [by right; left|done].
  - destruct (Z.geb_spec last n) as [Hge | Hlt].
    + split; [done|]. intros [? | [? | (n' & ? & ?)]]; simplify_eq; lia.
    + split; [|done]. intros _. right. right. by exists n.
Qed.

(** X14. A mover that is not disabled keeps the item inside the grid:
    after Up or Left the new start is still at least 1, and when the
    grid has a row or column count (other than 0), after Down or Right
    the last row or column the item covers is still within that count.
    The cell each click hands to [getNumberOfBlocksBeforeCell] is the
    item's new start. *)
Theorem enabled_mover_stays_in_grid :
  (moveUpDisabled layout = false ->
   Grid.rowStart (moveUp layout).1 = Some (rowStart layout - 1)
   /\ 1 <= rowStart layout - 1
   /\ (moveUp layout).2 = (columnStart layout, rowStart layout - 1))
  /\ (moveLeftDisabled layout = false ->
      Grid.columnStart (moveLeft layout).1 = Some (columnStart layout - 1)
      /\ 1 <= columnStart layout - 1
      /\ (moveLeft layout).2 = (columnStart layout - 1, rowStart layout))
  /\ (forall n,
        rowCount parentLayout = Some n -> n ≠ 0 ->
        moveDownDisabled layout parentLayout = false ->
        Grid.rowStart (moveDown layout).1 = Some (rowStart layout + 1)
        /\ (rowStart layout + 1) + rowSpan layout - 1 <= n
        /\ (moveDown layout).2 = (columnStart layout, rowStart layout + 1))
  /\ (forall n,
        columnCount parentLayout = Some n -> n ≠ 0 ->
        moveRightDisabled layout parentLayout = false ->
        Grid.columnStart (moveRight layout).1 = Some (columnStart layout + 1)
        /\ (columnStart layout + 1) + columnSpan layout - 1 <= n
        /\ (moveRight layout).2 = (columnStart layout + 1, rowStart layout)).
Proof.
  split; [|split; [|split]].
  - unfold moveUpDisabled. intros Hd. apply Z.leb_gt in Hd. simpl.
    repeat split. lia.
  - unfold moveLeftDisabled. intros Hd. apply Z.leb_gt in Hd. simpl.
    repeat split. lia.
  - unfold moveDownDisabled. intros n Hn Hn0 Hd.
    apply reachedCount_false in Hd as [Hd | [Hd | (n' & Hd & Hlt)]];
      rewrite Hn in Hd; simplify_eq.
    unfold rowEnd in Hlt. simpl. repeat split. lia.
  - unfold moveRightDisabled. intros n Hn Hn0 Hd.
    apply reachedCount_false in Hd as [Hd | [Hd | (n' & Hd & Hlt)]];
      rewrite Hn in Hd; simplify_eq.
    unfold columnEnd in Hlt. simpl. repeat split. lia.
Qed.

(** X15. Down and Right are disabled exactly when the grid has a count
    other than 0 and the item already reaches it; with no count, or a
    count of 0, they are never disabled. Up and Left are disabled
    exactly when the start is 1 or less, so always for an item without
    a layout. *)
Theorem mover_disabled_iff :
  (moveDownDisabled layout parentLayout = true
   <-> exists n, rowCount parentLayout = Some n /\ n ≠ 0 /\ n <= rowEnd layout)
  /\ (moveRightDisabled layout parentLayout = true
      <-> exists n,
            columnCount parentLayout = Some n /\ n ≠ 0 /\ n <= columnEnd layout)
  /\ (moveUpDisabled layout = true <-> rowStart layout <= 1)
  /\ (moveLeftDisabled layout = true <-> columnStart layout <= 1)
  /\ (layout = None -> moveUpDisabled layout = true /\ moveLeftDisabled layout = true).
Proof.
  assert (Hreached : forall count last,
            reachedCount count last = true
            <-> exists n, count = Some n /\ n ≠ 0 /\ n <= last).
  { intros count last. unfold reachedCount. destruct count as [n|].
    - destruct (Z.eqb_spec n 0) as [-> | Hn]; simpl.
      + split; [done|]. intros (n' & ? & ? & ?). simplify_eq.
      + destruct (Z.geb_spec last n) as [Hge | Hlt].
        * split; [|done]. intros _. exists n. repeat split; [done|lia].
        * split; [done|]. intros (n' & ? & ? & ?). simplify_eq. lia.
    - split; [done|]. by intros (n' & ? & ?). }
  split; [apply Hreached|]. split; [apply Hreached|].
  split; [apply Z.leb_le|]. split; [apply Z.leb_le|].
  by intros ->.
Qed.

End GridTheory.

(** * The view options *)

Lemma viewFields_explicit (fields : list Field.Field) (view : View.View) ids :
  View.fields view = Some ids -> viewFields fields view = ids.
Proof. intros Hf. unfold viewFields. by rewrite Hf. Qed.

Lemma toggled_fields (fields fields' : list Field.Field) (view : View.View)
    (field : Field.Field) :
  viewFields fields' (onChangeFieldVisibility fields view field)
  = if bool_decide (Field.id field ∈ viewFields fields view)
    then filter (fun id => id ≠ Field.id field) (viewFields fields view)
    else viewFields fields view ++ [Field.id field].
Proof. reflexivity. Qed.

(** X16. Clicking the checkbox of a field flips the visibility of that
    field and of no other: afterwards the field is listed exactly when it
    was not before, every other id is listed exactly when it was, a list
    without repetitions stays without repetitions, and nothing else of
    the view changes. *)
Theorem field_toggle_flips_one (fields fields' : list Field.Field)
    (view : View.View) (field : Field.Field) :
  (Field.id field ∈ viewFields fields' (onChangeFieldVisibility fields view field)
   <-> Field.id field ∉ viewFields fields view)
  /\ (forall id,
        id ≠ Field.id field ->
        id ∈ viewFields fields' (onChangeFieldVisibility fields view field)
        <-> id ∈ viewFields fields view)
  /\ (NoDup (viewFields fields view) ->
      NoDup (viewFields fields' (onChangeFieldVisibility fields view field)))
  /\ View.type (onChangeFieldVisibility fields view field) = View.type view
  /\ View.layout (onChangeFieldVisibility fields view field) = View.layout view
  /\ View.perPage (onChangeFieldVisibility fields view field) = View.perPage view
  /\ View.page (onChangeFieldVisibility fields view field) = View.page view
  /\ View.sort (onChangeFieldVisibility fields view field) = View.sort view
  /\ View.other (onChangeFieldVisibility fields view field) = View.other view.
Proof.
  rewrite toggled_fields.
  split; [|split; [|split; [|by repeat split]]].
  - case_bool_decide as Hin.
    + rewrite list_elem_of_filter. split; [by intros [? _]|done].
    + rewrite elem_of_app, list_elem_of_singleton. split; [done|by right].
  - intros id Hid. case_bool_decide as Hin.
    + rewrite list_elem_of_filter. split; [by intros [_ ?]|done].
    + rewrite elem_of_app, list_elem_of_singleton. split; [by intros [?|?]|by left].
  - intros Hnd. case_bool_decide as Hin.
    + by apply NoDup_filter.
    + apply NoDup_app. split; [done|]. split; [|apply NoDup_singleton].
      intros id Hid Hone. apply list_elem_of_singleton in Hone. by subst.
Qed.

(** X17. Clicking the same checkbox twice: for a field that was hidden
    the list of visible fields is exactly what it was; for a field that
    was visible, in a list without repetitions, the same fields are
    visible but the field has moved to the end. *)
Theorem field_toggle_twice (fields fields' fields'' : list Field.Field)
    (view : View.View) (field : Field.Field) :
  let twice :=
    viewFields fields''
      (onChangeFieldVisibility fields'
         (onChangeFieldVisibility fields view field) field) in
  (Field.id field ∉ viewFields fields view -> twice = viewFields fields view)
  /\ (Field.id field ∈ viewFields fields view ->
      twice
      = filter (fun id => id ≠ Field.id field) (viewFields fields view)
        ++ [Field.id field])
  /\ (Field.id field ∈ viewFields fields view ->
      NoDup (viewFields fields view) ->
      twice ≡ₚ viewFields fields view).
Proof.
  intros twice. subst twice. rewrite !toggled_fields.
  assert (Hout : forall l : list string,
            Field.id field ∉ l -> filter (fun id => id ≠ Field.id field) l = l).
  { intros l Hl. induction l as [|x l IH]; [done|].
    apply not_elem_of_cons in Hl as [Hne Hl].
    rewrite filter_cons_True by done. by rewrite IH. }
  assert (Hgone : forall l : list string,
            Field.id field ∉ filter (fun id => id ≠ Field.id field) l).
  { intros l. rewrite list_elem_of_filter. by intros [? _]. }
  split; [|split].
  - intros Hn. rewrite (bool_decide_eq_false_2 _ Hn).
    rewrite bool_decide_eq_true_2 by (apply elem_of_app; right; by left).
    rewrite filter_app, (Hout _ Hn).
    rewrite filter_cons_False by (intros Hc; by apply Hc).
    by rewrite app_nil_r.
  - intros Hin. rewrite (bool_decide_eq_true_2 _ Hin).
    by rewrite (bool_decide_eq_false_2 _ (Hgone _)).
  - intros Hin Hnd. rewrite (bool_decide_eq_true_2 _ Hin).
    rewrite (bool_decide_eq_false_2 _ (Hgone _)).
    clear Hgone. induction (viewFields fields view) as [|x l IH]; [by apply elem_of_nil in Hin|].
    apply NoDup_cons in Hnd as [Hx Hnd].
    destruct (decide (x = Field.id field)) as [-> | Hne].
    + rewrite filter_cons_False by (intros Hc; by apply Hc).
      rewrite (Hout _ Hx). symmetry. apply Permutation_cons_append.
    + rewrite filter_cons_True by done. simpl. constructor.
      apply IH; [|done]. by apply elem_of_cons in Hin as [? | ?].
Qed.

(** X18. The fields menu offers exactly the fields that may be hidden
    and are not the media field of the layout, in the order of the
    fields, and is absent when there is none. Each checkbox is checked
    exactly when its field is listed in the view; with no list in the
    view every checkbox is checked, with an empty list none is. *)
Theorem fields_menu_offers (fields : list Field.Field) (view : View.View) :
  (FieldsVisibilityMenu fields view = None <-> hidableFields fields view = [])
  /\ forall items,
       FieldsVisibilityMenu fields view = Some items ->
       (itemValue <$> items) = (Field.id <$> hidableFields fields view)
       /\ (forall item,
             item ∈ items ->
             Some (itemValue item) ≠ View.mediaField (View.layout view)
             /\ (exists f,
                   f ∈ fields /\ Field.id f = itemValue item
                   /\ Field.enableHiding f ≠ Some false)
             /\ itemChecked item
                = bool_decide (itemValue item ∈ viewFields fields view))
       /\ (View.fields view = None ->
           Forall (fun item => itemChecked item = true) items)
       /\ (View.fields view = Some [] ->
           Forall (fun item => itemChecked item = false) items).
Proof.
  unfold FieldsVisibilityMenu.
  assert (Hitems : forall items,
            items = map (fun field =>
                           mkMenuItem (Field.id field)
                             (bool_decide (Field.id field ∈ viewFields fields view)))
                        (hidableFields fields view) ->
            (itemValue <$> items) = (Field.id <$> hidableFields fields view)
            /\ (forall item,
                  item ∈ items ->
                  Some (itemValue item) ≠ View.mediaField (View.layout view)
                  /\ (exists f,
                        f ∈ fields /\ Field.id f = itemValue item
                        /\ Field.enableHiding f ≠ Some false)
                  /\ itemChecked item
                     = bool_decide (itemValue item ∈ viewFields fields view))
            /\ (View.fields view = None ->
                Forall (fun item => itemChecked item = true) items)
            /\ (View.fields view = Some [] ->
                Forall (fun item => itemChecked item = false) items)).
  { intros items ->. split; [|split; [|split]].
    - induction (hidableFields fields view) as [|f l IH]; [done|].
      cbn [map]. rewrite !fmap_cons. by rewrite IH.
    - intros item Hitem. apply list_elem_of_In, in_map_iff in Hitem as (f & <- & Hf).
      apply list_elem_of_In in Hf. unfold hidableFields in Hf.
      apply list_elem_of_filter in Hf as [[Hhide Hmedia] Hf]. simpl.
      split; [done|]. split; [by exists f|done].
    - intros Hnone. apply Forall_forall. intros item Hitem.
      apply list_elem_of_In, in_map_iff in Hitem as (f & <- & Hf). simpl.
      apply bool_decide_eq_true_2. unfold viewFields. rewrite Hnone.
      apply list_elem_of_In, in_map. apply list_elem_of_In in Hf.
      unfold hidableFields in Hf. apply list_elem_of_filter in Hf as [_ Hf].
      by apply list_elem_of_In.
    - intros Hempty. apply Forall_forall. intros item Hitem.
      apply list_elem_of_In, in_map_iff in Hitem as (f & <- & Hf). simpl.
      apply bool_decide_eq_false_2. unfold viewFields. rewrite Hempty.
      apply not_elem_of_nil. }
  destruct (hidableFields fields view) as [|f hidable] eqn:Hh.
  - split; [done|]. intros items Hnone. discriminate.
  - split; [split; discriminate|]. intros items Hsome. injection Hsome as <-.
    by apply Hitems.
Qed.

(** X19. Choosing a page size goes back to the first page: the view then
    has that size and page 1, the menu checks the item of that size and
    no other, and nothing else of the view changes. In any view at most
    one page size is checked. *)
Theorem page_size_choice (view : View.View) (size : Z) :
  View.perPage (onChangePageSize view size) = Some size
  /\ View.page (onChangePageSize view size) = Some 1%Z
  /\ (forall item,
        item ∈ PageSizeMenu (onChangePageSize view size) ->
        itemChecked item = true <-> itemValue item = size)
  /\ (forall item item',
        item ∈ PageSizeMenu view -> item' ∈ PageSizeMenu view ->
        itemChecked item = true -> itemChecked item' = true -> item = item')
  /\ View.type (onChangePageSize view size) = View.type view
  /\ View.layout (onChangePageSize view size) = View.layout view
  /\ View.fields (onChangePageSize view size) = View.fields view
  /\ View.sort (onChangePageSize view size) = View.sort view
  /\ View.other (onChangePageSize view size) = View.other view.
Proof.
  assert (Hitem : forall v item,
            item ∈ PageSizeMenu v ->
            itemChecked item = bool_decide (View.perPage v = Some (itemValue item))).
  { intros v item Hin. unfold PageSizeMenu in Hin.
    apply list_elem_of_In, in_map_iff in Hin as (s & <- & _). reflexivity. }
  split; [done|]. split; [done|]. split; [|split; [|by repeat split]].
  - intros item Hin. rewrite (Hitem _ _ Hin). simpl.
    rewrite bool_decide_eq_true. split; congruence.
  - intros [v c] [v' c'] Hin Hin' Hc Hc'.
    pose proof (Hitem _ _ Hin) as H1. pose proof (Hitem _ _ Hin') as H2.
    simpl in *. subst c c'. symmetry in H1, H2.
    apply bool_decide_eq_true in H1. apply bool_decide_eq_true in H2.
    f_equal. congruence.
Qed.

Lemma isChecked_iff (fields : list Field.Field) (view : View.View)
    (g : Field.Field) (d : string) :
  isChecked fields view g d = true
  <-> exists s,
        View.sort view = Some s /\ View.direction s = d
        /\ View.field s = Field.id g
        /\ exists f, f ∈ fields /\ Field.id f = View.field s.
Proof.
  unfold isChecked, currentSortedField.
  destruct (List.find _ fields) as [c|] eqn:Hfind.
  - apply find_some in Hfind as [Hc Hid]. apply bool_decide_eq_true in Hid.
    apply list_elem_of_In in Hc.
    destruct (View.sort view) as [s|]; simpl in *; [|done].
    injection Hid as Hid. rewrite andb_true_iff, !bool_decide_eq_true. split.
    + intros [Hd Hg]. exists s. repeat split; [congruence|congruence|].
      by exists c.
    + intros (s' & Hs & Hd & Hg & _). simplify_eq. split; congruence.
  - split; [done|]. intros (s & Hs & Hd & Hg & f & Hf & Hfid).
    apply list_elem_of_In in Hf.
    pose proof (find_none _ _ Hfind f Hf) as Hno. simpl in Hno.
    rewrite Hs in Hno. simpl in Hno.
    rewrite bool_decide_eq_true_2 in Hno by congruence. done.
Qed.

(** X20. A sort radio item is checked exactly when the view is sorted
    in its direction by a field with its id, and that field is one of
    the fields. So after an item of one of the fields is chosen,
    exactly the items with that field id and that direction are checked;
    in any view the checked items agree on field id and direction; and
    choosing a sort changes nothing else of the view. *)
Theorem sort_choice (fields : list Field.Field) (view : View.View)
    (field : Field.Field) (direction : string) :
  (forall g d,
     isChecked fields view g d = true
     <-> exists s,
           View.sort view = Some s /\ View.direction s = d
           /\ View.field s = Field.id g
           /\ exists f, f ∈ fields /\ Field.id f = View.field s)
  /\ (field ∈ fields ->
      forall g d,
        isChecked fields (onChangeSort view field direction) g d = true
        <-> Field.id g = Field.id field /\ d = direction)
  /\ (forall g d g' d',
        isChecked fields view g d = true -> isChecked fields view g' d' = true ->
        Field.id g = Field.id g' /\ d = d')
  /\ View.type (onChangeSort view field direction) = View.type view
  /\ View.layout (onChangeSort view field direction) = View.layout view
  /\ View.perPage (onChangeSort view field direction) = View.perPage view
  /\ View.page (onChangeSort view field direction) = View.page view
  /\ View.fields (onChangeSort view field direction) = View.fields view
  /\ View.other (onChangeSort view field direction) = View.other view.
Proof.
  split; [intros g d; apply isChecked_iff|].
  split; [|split; [|by repeat split]].
  - intros Hfield g d. rewrite isChecked_iff. simpl. split.
    + intros (s & Hs & Hd & Hg & _). injection Hs as <-. simpl in *. by split.
    + intros [Hg ->]. exists (View.mkSort (Field.id field) direction).
      simpl. repeat split; [done|]. by exists field.
  - intros g d g' d' H1 H2.
    apply isChecked_iff in H1 as (s & Hs & Hd & Hg & _).
    apply isChecked_iff in H2 as (s' & Hs' & Hd' & Hg' & _).
    simplify_eq. split; [congruence|done].
Qed.

(** X21. Choosing a layout: for ['list'], ['grid'] and ['table'] the
    view gets that type and an empty layout, and keeps its page size,
    page, fields and sort; for any other value an error is thrown and no
    view is handed on. With the layout emptied the view has no media
    field, so every field that may be hidden is offered by the fields
    menu again. *)
Theorem view_type_choice (view : View.View) (value : string) :
  (value = "list" \/ value = "grid" \/ value = "table" ->
   onChangeViewType view value
   = inl (View.mkView value emptyLayout (View.perPage view) (View.page view)
            (View.fields view) (View.sort view) (View.other view)))
  /\ (~ (value = "list" \/ value = "grid" \/ value = "table") ->
      onChangeViewType view value = inr "Invalid dataview")
  /\ (forall view' fields,
        onChangeViewType view value = inl view' ->
        View.mediaField (View.layout view') = None
        /\ hidableFields fields view'
           = filter (fun f => Field.enableHiding f ≠ Some false) fields).
Proof.
  unfold onChangeViewType. split; [|split].
  - intros Hv. by rewrite bool_decide_eq_true_2.
  - intros Hv. by rewrite bool_decide_eq_false_2.
  - intros view' fields. case_bool_decide; [|done]. intros Hv. injection Hv as <-.
    split; [done|]. unfold hidableFields. simpl.
    induction fields as [|f fields IH]; [done|].
    destruct (decide (Field.enableHiding f ≠ Some false)) as [Hh | Hh].
    + rewrite !filter_cons_True; [by rewrite IH|done|done].
    + rewrite !filter_cons_False; [done|done|]. by intros [? _].
Qed.

(** X22. The layout menu offers the entries of [VIEW_LAYOUTS], restricted
    to the supported layouts when these are given, and checks the entry
    of the view's type. It is absent exactly when one entry is left;
    when none is left it is present and empty. *)
Theorem view_type_menu_offers (VIEW_LAYOUTS : list ViewLayoutEntry)
    (view : View.View) (supportedLayouts : option (list string)) :
  (ViewTypeMenu VIEW_LAYOUTS view supportedLayouts = None
   <-> length (availableViews VIEW_LAYOUTS supportedLayouts) = 1%nat)
  /\ (availableViews VIEW_LAYOUTS supportedLayouts = [] ->
      ViewTypeMenu VIEW_LAYOUTS view supportedLayouts = Some [])
  /\ (forall items,
        ViewTypeMenu VIEW_LAYOUTS view supportedLayouts = Some items ->
        (itemValue <$> items)
        = (entryType <$> availableViews VIEW_LAYOUTS supportedLayouts)
        /\ forall item,
             item ∈ items ->
             (exists entry, entry ∈ VIEW_LAYOUTS /\ entryType entry = itemValue item)
             /\ (forall supported,
                   supportedLayouts = Some supported -> itemValue item ∈ supported)
             /\ (itemChecked item = true <-> itemValue item = View.type view)).
Proof.
  unfold ViewTypeMenu. split; [|split].
  - case_bool_decide; split; done.
  - intros ->. reflexivity.
  - intros items. case_bool_decide as Hlen; [done|]. intros Hitems.
    injection Hitems as <-. split.
    + clear Hlen.
      induction (availableViews VIEW_LAYOUTS supportedLayouts) as [|e l IH]; [done|].
      cbn [map]. rewrite !fmap_cons. by rewrite IH.
    + intros item Hitem.
      apply list_elem_of_In, in_map_iff in Hitem as (e & <- & He).
      apply list_elem_of_In in He. simpl.
      split; [|split].
      * exists e. split; [|done]. unfold availableViews in He.
        destruct supportedLayouts; [|done].
        by apply list_elem_of_filter in He as [_ ?].
      * intros supported ->. unfold availableViews in He.
        by apply list_elem_of_filter in He as [? _].
      * apply bool_decide_eq_true.
Qed.

(** * The extra properties on the samples *)

Lemma first_inferred_alignment_witness :
  sampleAligned ≠ []
  /\ useInferredLayout alignAttribute layoutTypeOf AlignUndefined
       (Some sampleAligned) (Some "constrained")
     = (mkInferredLayout (AlignString "full") (Some "constrained"),
        AlignString "full").
Proof.
  assert (Hne : sampleAligned ≠ []) by discriminate.
  split; [exact Hne|].
  apply (proj1 (first_inferred_alignment alignAttribute layoutTypeOf sampleAligned
                  (Some "constrained") Hne)).
  split.
  - exists "constrained". split; reflexivity.
  - exists (mkBlock "b" "core/image" (Some "wide") []), "wide".
    split; [|split; [reflexivity|]].
    + apply list_elem_of_In. simpl. auto.
    + apply list_elem_of_In. simpl. auto.
Defined.

Lemma inferred_alignment_is_sticky_witness :
  sampleAligned ≠ []
  /\ inferredLayouts alignAttribute layoutTypeOf (AlignString "full") sampleRenders
     = [mkInferredLayout AlignUndefined None;
        mkInferredLayout (AlignString "full") (Some "flow")]
  /\ Forall2
       (fun render result =>
          match render.1 with
          | Some (_ :: _) =>
              inferredAlignment result = AlignString "full"
              /\ inferredLayout result = render.2
          | _ => result = mkInferredLayout AlignUndefined None
          end)
       sampleRenders
       (inferredLayouts alignAttribute layoutTypeOf (AlignString "full") sampleRenders).
Proof.
  assert (Hne : sampleAligned ≠ []) by discriminate.
  split; [exact Hne|]. split; [reflexivity|].
  exact (inferred_alignment_is_sticky alignAttribute layoutTypeOf AlignUndefined
           sampleAligned (Some "constrained") sampleRenders Hne).
Defined.

Lemma choosing_cover_or_contain_witness :
  ("contain" = "cover" \/ "contain" = "contain")
  /\ backgroundOf (styleWith (updateBackgroundSize tileStyle None None (Some "contain")))
     = Some (updateBackgroundSize tileStyle None None (Some "contain"))
  /\ currentValueForToggle
       (styleWith (updateBackgroundSize tileStyle None None (Some "contain")))
       None None
     = Some "contain".
Proof.
  assert (Hnext : "contain" = "cover" \/ "contain" = "contain") by (right; reflexivity).
  split; [exact Hnext|]. split; [reflexivity|].
  exact (proj1 (choosing_cover_or_contain tileStyle None None
                  (styleWith (updateBackgroundSize tileStyle None None (Some "contain")))
                  "contain" Hnext eq_refl)).
Defined.

Lemma switching_to_tile_witness :
  (currentValueForToggle coverStyle None None = Some "cover"
   \/ currentValueForToggle coverStyle None None = Some "contain")
  /\ backgroundOf (styleWith (updateBackgroundSize coverStyle None None (Some "auto")))
     = Some (updateBackgroundSize coverStyle None None (Some "auto"))
  /\ backgroundOf (styleWith (updateBackgroundSize coverStyle None None (Some "auto")))
       ≫= backgroundSize = Some "auto".
Proof.
  assert (Hcur : currentValueForToggle coverStyle None None = Some "cover"
                 \/ currentValueForToggle coverStyle None None = Some "contain")
    by (left; reflexivity).
  split; [exact Hcur|]. split; [reflexivity|].
  exact (proj1 (switching_to_tile coverStyle None None
                  (styleWith (updateBackgroundSize coverStyle None None (Some "auto")))
                  Hcur eq_refl)).
Defined.

Lemma repeat_toggle_flips_witness :
  backgroundOf
    (styleWith (mkBackground None (Some "120px") None
                  (Some (toggleIsRepeated tileStyle None None)) ∅))
    ≫= backgroundRepeat
  = Some (toggleIsRepeated tileStyle None None)
  /\ repeatCheckedValue
       (styleWith (mkBackground None (Some "120px") None
                     (Some (toggleIsRepeated tileStyle None None)) ∅))
       None None
     = negb (repeatCheckedValue tileStyle None None).
Proof.
  split; [reflexivity|].
  exact (repeat_toggle_flips tileStyle None None
           (styleWith (mkBackground None (Some "120px") None
                         (Some (toggleIsRepeated tileStyle None None)) ∅))
           eq_refl).
Defined.

Lemma tile_keeps_a_size_witness :
  currentValueForToggle tileStyle None None = Some "auto"
  /\ backgroundOf (styleWith (updateBackgroundSize tileStyle None None None))
     = Some (updateBackgroundSize tileStyle None None None)
  /\ truthy (backgroundOf (styleWith (updateBackgroundSize tileStyle None None None))
               ≫= backgroundSize) = true.
Proof.
  split; [reflexivity|]. split; [reflexivity|].
  exact (proj1 (tile_keeps_a_size tileStyle None None
                  (styleWith (updateBackgroundSize tileStyle None None None))
                  None eq_refl eq_refl)).
Defined.

Lemma help_text_matches_toggle_witness :
  sizeValue coverStyle None ≠ Some ""
  /\ (currentValueForToggle coverStyle None None = Some "cover" ->
      sizeHelp coverStyle None None = "Image covers the space evenly.").
Proof.
  assert (Hne : sizeValue coverStyle None ≠ Some "") by discriminate.
  split; [exact Hne|].
  exact (proj1 (help_text_matches_toggle coverStyle None None Hne)).
Defined.

Lemma selected_media_is_an_image_witness :
  onSelectMedia startsWithBlob tileStyle (Some sampleMedia)
  = SetBackground
      (mkBackground
         (Some (ImageObject (Some 9%Z) (Some "https://example.org/b.png") (Some "b")
                  (Some "file")))
         (Some "120px") None (Some "repeat") ∅)
  /\ exists m url,
       Some sampleMedia = Some m /\ mediaUrl m = Some url /\ url ≠ ""
       /\ startsWithBlob url = false.
Proof.
  assert (Hsel : onSelectMedia startsWithBlob tileStyle (Some sampleMedia)
                 = SetBackground
                     (mkBackground
                        (Some (ImageObject (Some 9%Z) (Some "https://example.org/b.png")
                                 (Some "b") (Some "file")))
                        (Some "120px") None (Some "repeat") ∅)) by reflexivity.
  split; [exact Hsel|].
  destruct (selected_media_is_an_image startsWithBlob tileStyle (Some sampleMedia) _ Hsel)
    as (m & url & Hm & Hurl & Hne & Hblob & _).
  exists m, url. by repeat split.
Defined.

(** * The walk across siblings *)

Lemma writes_app {Attrs} (isOverridableBlock : Block Attrs -> bool)
    (patternBlockName : string) (blocks1 blocks2 : list (Block Attrs))
    (mode : option string) :
  writes isOverridableBlock patternBlockName (blocks1 ++ blocks2) mode
  = writes isOverridableBlock patternBlockName blocks1 mode
    ++ writes isOverridableBlock patternBlockName blocks2 mode.
Proof.
  induction blocks1 as [|b bs IH]; [done|].
  rewrite <- app_comm_cons, !writes_cons, IH. simpl. by rewrite app_assoc.
Qed.

(** X23. The forced ['disabled'] of a nested pattern block stays inside
    that block: when a pattern block is followed by siblings, its own
    mode and the modes of its siblings are those of the call, and only
    the blocks below it are written ['disabled']. Walking two lists of
    siblings one after the other is walking their concatenation, for any
    callback. *)
Theorem forced_mode_stays_below_pattern {Attrs S}
    (isOverridableBlock : Block Attrs -> bool) (patternBlockName : string)
    (set : string -> string -> S -> S)
    (p : Block Attrs) (before after : list (Block Attrs)) (mode : option string)
    (st : S) :
  (name p = patternBlockName ->
   writes isOverridableBlock patternBlockName (before ++ p :: after) mode
   = writes isOverridableBlock patternBlockName before mode
     ++ (clientId p, editModeOf isOverridableBlock mode p)
        :: ((fun b => (clientId b, disabled)) <$> allBlocks (innerBlocks p))
     ++ writes isOverridableBlock patternBlockName after mode)
  /\ setBlockEditMode isOverridableBlock patternBlockName set (before ++ after) mode st
     = setBlockEditMode isOverridableBlock patternBlockName set after mode
         (setBlockEditMode isOverridableBlock patternBlockName set before mode st).
Proof.
  split.
  - intros Hname. rewrite writes_app, writes_cons.
    rewrite (innerMode_pattern patternBlockName mode p Hname).
    by rewrite writes_all_disabled.
  - rewrite !setBlockEditMode_fold, writes_app. apply fold_left_app.
Qed.

(** X24. With a supplied non-empty mode the classifier is never
    consulted: for any two classifiers the calls of the callback are the
    same, and so is the registry afterwards. *)
Theorem supplied_mode_ignores_classifier {Attrs}
    (isOverridable1 isOverridable2 : Block Attrs -> bool)
    (patternBlockName : string) (blocks : list (Block Attrs)) (m : string)
    (reg : gmap string string) :
  m ≠ "" ->
  writes isOverridable1 patternBlockName blocks (Some m)
  = writes isOverridable2 patternBlockName blocks (Some m)
  /\ setBlockEditMode isOverridable1 patternBlockName setBlockEditingMode
       blocks (Some m) reg
     = setBlockEditMode isOverridable2 patternBlockName setBlockEditingMode
         blocks (Some m) reg.
Proof.
  intros Hm.
  pose proof (writes_supplied_any_classifier isOverridable1 isOverridable2
                patternBlockName blocks m Hm) as Hw.
  split; [exact Hw|]. rewrite !setBlockEditMode_fold. by rewrite Hw.
Qed.

Lemma supplied_mode_ignores_classifier_witness :
  "disabled" ≠ ""
  /\ writes flagged corePattern sampleFlat (Some "disabled")
     = writes (fun _ => false) corePattern sampleFlat (Some "disabled").
Proof.
  assert (Hm : "disabled" ≠ "") by discriminate.
  split; [exact Hm|].
  exact (proj1 (supplied_mode_ignores_classifier flagged (fun _ => false)
                  corePattern sampleFlat "disabled" ∅ Hm)).
Defined.

(** * Removing an inherited background image *)

(** X25. Of the two menu items Remove and Reset at most one is shown,
    and one of them is shown exactly when the panel finds an image on
    the block or inherited. After Remove has written ['none'] the block
    counts as having an image value of its own, so Reset is shown and
    Remove no longer is. *)
Theorem remove_then_reset (style inheritedValue style' : option Style) :
  (canRemove style inheritedValue && hasValue style = false)
  /\ (canRemove style inheritedValue || hasValue style
      = hasImageValue style inheritedValue)
  /\ (backgroundOf style' ≫= backgroundImage = Some onRemove ->
      hasValue style' = true /\ canRemove style' inheritedValue = false).
Proof.
  unfold canRemove, hasValue, hasImageValue. split; [|split].
  - by destruct (hasBackgroundImageValue style),
         (hasBackgroundImageValue inheritedValue).
  - by destruct (hasBackgroundImageValue style),
         (hasBackgroundImageValue inheritedValue).
  - intros Himg.
    assert (Hv : hasBackgroundImageValue style' = true).
    { unfold hasBackgroundImageValue. rewrite Himg. reflexivity. }
    by rewrite Hv.
Qed.
